(** * pathfinding_service.model.token_network

    A shallow embedding of [TokenNetwork]
    (src/pathfinding_service/model/token_network.py): the channel graph, the
    contract-event and message handlers that maintain it, and the
    diversity-penalised path search [get_paths].

    Conventions of the embedding.
    - Python [int] is [Z]; the channel graph and every dictionary are finite
      maps of stdpp.
    - The one float that the program computes itself, the quotient
      [settle_timeout / reveal_timeout], is the exact quotient rounded to the
      nearest double ([true_div]); a double is given by its value, a
      rational.
    - A method is a function from the [TokenNetwork] it is called on to an
      [Outcome]: the object afterwards, the records written to the logger,
      and the value returned or the exception raised.
    - The numbers used as edge weights and diversity penalties (Python [int]
      or [float], whichever the caller passes) are kept abstract in the class
      [PyNumber]; nothing in the program compares them, only the graph
      library does.
    - What belongs to networkx, eth_utils and [pathfinding_service.config]
      is a field of the class [Library]. *)

From Stdlib Require Import ZArith QArith List Ascii String Lia.
From stdpp Require Import gmap strings list fin_maps pretty.

Local Open Scope Z_scope.

(** ** Values *)

(** [raiden_libs.types.Address] and [ChannelIdentifier]. *)
Abbreviation Address := string (only parsing).
Abbreviation ChannelIdentifier := Z (only parsing).

(** The exceptions that the program or the libraries it calls can raise. *)
Inductive Exception : Set :=
| AssertionError
| KeyError
| ZeroDivisionError
| OverflowError
| NetworkXError
| NodeNotFound
| NetworkXNoPath.

Inductive Result (A : Type) : Type :=
| Ok (a : A)
| Raise (e : Exception).
Arguments Ok {A} a.
Arguments Raise {A} e.

(** ** True division of two ints

    Python's [a / b] for two ints is the double nearest to the exact
    quotient, ties going to the even mantissa: 53 bits of mantissa, multiples
    of [2 ^ -1074] in the subnormal range. It raises [ZeroDivisionError] for
    [b = 0] and [OverflowError] when the rounded quotient is [2 ^ 1024] or
    more. *)

(** [n / (d * 2 ^ e)] as a fraction of two integers. *)
Definition scaled (n d e : Z) : Z * Z :=
  if 0 <=? e then (n, d * 2 ^ e) else (n * 2 ^ (- e), d).

(** The [f] with [2 ^ f <= n / d < 2 ^ (f + 1)], for positive [n] and [d]. *)
Definition quotient_exponent (n d : Z) : Z :=
  let k := Z.log2 n - Z.log2 d in
  let '(a, b) := scaled n d k in
  if b <=? a then k else k - 1.

(** [num / den] rounded to the nearest integer, a tie to the even one. *)
Definition round_half_even (num den : Z) : Z :=
  let m := num / den in
  let r := num mod den in
  if den <? 2 * r then m + 1
  else if 2 * r =? den then (if Z.even m then m else m + 1)
  else m.

(** The rational [m * 2 ^ e]. *)
Definition dyadic (m e : Z) : Q :=
  if 0 <=? e then inject_Z (m * 2 ^ e) else Qmake m (Z.to_pos (2 ^ (- e))).

(** The double nearest to [n / d] for positive [n] and [d]; [None] when it
    is out of range. *)
Definition nearest_double (n d : Z) : option Q :=
  let e := Z.max (quotient_exponent n d - 52) (-1074) in
  let '(num, den) := scaled n d e in
  let m := round_half_even num den in
  if (0 <=? e) && (2 ^ 1024 <=? m * 2 ^ e) then None else Some (dyadic m e).

Definition true_div (a b : Z) : Result Q :=
  if b =? 0 then Raise ZeroDivisionError
  else if a =? 0 then Ok 0%Q
  else
    match nearest_double (Z.abs a) (Z.abs b) with
    | None => Raise OverflowError
    | Some q => Ok (if Bool.eqb (a <? 0) (b <? 0) then q else (- q)%Q)
    end.

(** Numbers of edge weights: the literals [0] and [1] and [+]. *)
Class PyNumber : Type := {
  number : Type;
  num_of_Z : Z -> number;
  num_add : number -> number -> number
}.

(** Modelled from the spec: the class [ChannelView] of
    [pathfinding_service.model], which is not among the sources. One view
    per directed edge: identity (channel identifier, the two participants),
    [deposit], [capacity], [nonce], [settle_timeout], [reveal_timeout] and
    [relative_fee]. *)
Record ChannelView : Set := {
  channel_id : ChannelIdentifier;
  participant1 : Address;
  participant2 : Address;
  deposit : Z;
  capacity : Z;
  nonce : Z;
  settle_timeout : Z;
  reveal_timeout : Z;
  relative_fee : Z
}.

(** Modelled from the spec: [ChannelView.update_capacity(nonce?, capacity?,
    deposit?, reveal_timeout?)] "applies whichever fields are supplied"; a
    supplied deposit is the new total deposit and replaces the capacity
    baseline. Identity, [settle_timeout] and [relative_fee] are not touched. *)
Definition update_capacity (v : ChannelView)
    (nonce' capacity' deposit' reveal_timeout' : option Z) : ChannelView :=
  {| channel_id := channel_id v;
     participant1 := participant1 v;
     participant2 := participant2 v;
     deposit := default (deposit v) deposit';
     capacity :=
       match deposit' with
       | Some d => default d capacity'
       | None => default (capacity v) capacity'
       end;
     nonce := default (nonce v) nonce';
     settle_timeout := settle_timeout v;
     reveal_timeout := default (reveal_timeout v) reveal_timeout';
     relative_fee := relative_fee v |}.

Section Graph.
Context {Num : PyNumber}.

(** The attribute dictionary of an edge: ['view'], which every edge of this
    program carries from [add_edge], and ['weight'], absent until
    [get_paths] writes it. *)
Record EdgeData : Type := {
  view : ChannelView;
  weight : option number
}.

(** [networkx.DiGraph], as far as the program looks at it: the nodes, and
    the attribute dictionary [G[u][v]] of every directed edge. *)
Record DiGraph : Type := {
  nodes : gset Address;
  edges : gmap (Address * Address) EdgeData
}.

Definition DiGraph_new : DiGraph := {| nodes := ∅; edges := ∅ |}.

(** [G.add_edge(u, v, view=vw)]: both end points become nodes; an edge that
    exists keeps its dictionary, whose ['view'] entry is overwritten. *)
Definition add_edge (g : DiGraph) (u v : Address) (vw : ChannelView) : DiGraph :=
  {| nodes := {[u]} ∪ ({[v]} ∪ nodes g);
     edges := <[(u, v) := {| view := vw;
                             weight := edges g !! (u, v) ≫= weight |}]> (edges g) |}.

(** [G.remove_edge(u, v)]: raises [NetworkXError] when there is no such
    edge; the nodes stay. *)
Definition remove_edge (g : DiGraph) (u v : Address) : Result DiGraph :=
  match edges g !! (u, v) with
  | Some _ => Ok {| nodes := nodes g; edges := delete (u, v) (edges g) |}
  | None => Raise NetworkXError
  end.

(** [G[u][v]['view']], a [KeyError] when the edge is absent. *)
Definition edge_view (g : DiGraph) (u v : Address) : Result ChannelView :=
  match edges g !! (u, v) with
  | Some e => Ok (view e)
  | None => Raise KeyError
  end.

(** [G[u][v]['view'].update_capacity(...)]: the view object held by the edge
    is changed in place; [None] stands for the [KeyError] of the lookup. *)
Definition update_view (g : DiGraph) (u v : Address)
    (f : ChannelView -> ChannelView) : option DiGraph :=
  match edges g !! (u, v) with
  | Some e =>
      Some {| nodes := nodes g;
              edges := <[(u, v) := {| view := f (view e); weight := weight e |}]> (edges g) |}
  | None => None
  end.

(** The generator returned by [networkx.shortest_simple_paths], unrolled: the
    paths it yields, ended by exhaustion or by an exception. *)
Inductive PathGen : Type :=
| Yield (p : list Address) (rest : PathGen)
| StopIteration
| GenRaise (e : Exception).

(** ** The object *)

Record TokenNetwork : Type := {
  address : Address;
  token_address : Address;
  channel_id_to_addresses : gmap ChannelIdentifier (Address * Address);
  G : DiGraph;
  max_relative_fee : Z
}.

Definition TokenNetwork_init (token_network_address token_address' : Address) : TokenNetwork :=
  {| address := token_network_address;
     token_address := token_address';
     channel_id_to_addresses := ∅;
     G := DiGraph_new;
     max_relative_fee := 0 |}.

Definition set_G (tn : TokenNetwork) (g : DiGraph) : TokenNetwork :=
  {| address := address tn;
     token_address := token_address tn;
     channel_id_to_addresses := channel_id_to_addresses tn;
     G := g;
     max_relative_fee := max_relative_fee tn |}.

Definition set_channels (tn : TokenNetwork)
    (m : gmap ChannelIdentifier (Address * Address)) : TokenNetwork :=
  {| address := address tn;
     token_address := token_address tn;
     channel_id_to_addresses := m;
     G := G tn;
     max_relative_fee := max_relative_fee tn |}.

(** What a method call leaves behind. *)
Record Outcome (A : Type) : Type := {
  state : TokenNetwork;
  logged : list string;
  returned : Result A
}.

Definition ret {A} (tn : TokenNetwork) (a : A) : Outcome A :=
  {| state := tn; logged := []; returned := Ok a |}.
Definition raise {A} (tn : TokenNetwork) (e : Exception) : Outcome A :=
  {| state := tn; logged := []; returned := Raise e |}.
(** [log.error(msg, ...)] followed by falling off the end of the method. *)
Definition log_error (tn : TokenNetwork) (msg : string) : Outcome unit :=
  {| state := tn; logged := [msg]; returned := Ok tt |}.

End Graph.

Arguments state {Num A} _.
Arguments logged {Num A} _.
Arguments returned {Num A} _.

(** ** What the libraries provide *)

Class Library {Num : PyNumber} : Type := {
  (** [eth_utils.is_checksum_address] *)
  is_checksum_address : Address -> bool;
  (** [pathfinding_service.config] *)
  DEFAULT_SETTLE_TO_REVEAL_TIMEOUT_RATIO : Q;
  MAX_PATHS_PER_REQUEST : Z;
  (** the default of [ChannelView]'s [reveal_timeout] argument *)
  DEFAULT_REVEAL_TIMEOUT : Z;
  (** the body of [networkx.shortest_simple_paths] (Yen's algorithm on the
      ['weight'] attribute) once its arguments have been checked *)
  simple_paths_by_weight : DiGraph -> Address -> Address -> PathGen
}.

Section Methods.
Context {Num : PyNumber} {Lib : Library}.

(** Modelled from the spec: the constructor [ChannelView(channel_id,
    participant1, participant2, settle_timeout, deposit)], which is not among
    the sources; a view is created with the given deposit as its capacity,
    nonce and fee zero and the default reveal timeout. *)
Definition ChannelView_new (cid : ChannelIdentifier) (p1 p2 : Address)
    (settle deposit0 : Z) : ChannelView :=
  {| channel_id := cid;
     participant1 := p1;
     participant2 := p2;
     deposit := deposit0;
     capacity := deposit0;
     nonce := 0;
     settle_timeout := settle;
     reveal_timeout := DEFAULT_REVEAL_TIMEOUT;
     relative_fee := 0 |}.

(** ** Contract event listener functions *)

Definition handle_channel_opened_event (tn : TokenNetwork)
    (channel_identifier : ChannelIdentifier) (p1 p2 : Address)
    (settle : Z) : Outcome unit :=
  if negb (is_checksum_address p1) then raise tn AssertionError
  else if negb (is_checksum_address p2) then raise tn AssertionError
  else
    let channels := <[channel_identifier := (p1, p2)]> (channel_id_to_addresses tn) in
    let view1 := ChannelView_new channel_identifier p1 p2 settle 0 in
    let view2 := ChannelView_new channel_identifier p1 p2 settle 0 in
    let g1 := add_edge (G tn) p1 p2 view1 in
    let g2 := add_edge g1 p2 p1 view2 in
    ret (set_G (set_channels tn channels) g2) tt.

Definition unknown_deposit_msg : string :=
  "Received ChannelNewDeposit event for unknown channel".
Definition misfit_deposit_msg : string :=
  "Receiver in ChannelNewDeposit does not fit the internal channel".
Definition unknown_closed_msg : string :=
  "Received ChannelClosed event for unknown channel".

Definition handle_channel_new_deposit_event (tn : TokenNetwork)
    (channel_identifier : ChannelIdentifier) (receiver : Address)
    (total_deposit : Z) : Outcome unit :=
  if negb (is_checksum_address receiver) then raise tn AssertionError
  else
    match channel_id_to_addresses tn !! channel_identifier with
    | None => log_error tn unknown_deposit_msg
    | Some (p1, p2) =>
        let deposited v := update_capacity v None None (Some total_deposit) None in
        if decide (receiver = p1) then
          match update_view (G tn) p1 p2 deposited with
          | Some g => ret (set_G tn g) tt
          | None => log_error tn unknown_deposit_msg
          end
        else if decide (receiver = p2) then
          match update_view (G tn) p2 p1 deposited with
          | Some g => ret (set_G tn g) tt
          | None => log_error tn unknown_deposit_msg
          end
        else log_error tn misfit_deposit_msg
    end.

(** The [except KeyError] clause catches the failing [pop] only: the
    [NetworkXError] of [remove_edge] leaves the method, after the entry (and
    possibly the first edge) is gone. *)
Definition handle_channel_closed_event (tn : TokenNetwork)
    (channel_identifier : ChannelIdentifier) : Outcome unit :=
  match channel_id_to_addresses tn !! channel_identifier with
  | None => log_error tn unknown_closed_msg
  | Some (p1, p2) =>
      let tn1 := set_channels tn (delete channel_identifier (channel_id_to_addresses tn)) in
      match remove_edge (G tn1) p1 p2 with
      | Raise e => raise tn1 e
      | Ok g1 =>
          match remove_edge g1 p2 p1 with
          | Raise e => raise (set_G tn1 g1) e
          | Ok g2 => ret (set_G tn1 g2) tt
          end
      end
  end.

(** [channel_identifier] is a parameter of the method that its body never
    reads. *)
Definition get_channel_views_for_partner (tn : TokenNetwork)
    (channel_identifier : ChannelIdentifier)
    (updating_participant other_participant : Address)
    : Outcome (ChannelView * ChannelView) :=
  match edge_view (G tn) updating_participant other_participant with
  | Raise e => raise tn e
  | Ok channel_view_to_partner =>
      match edge_view (G tn) other_participant updating_participant with
      | Raise e => raise tn e
      | Ok channel_view_from_partner =>
          ret tn (channel_view_to_partner, channel_view_from_partner)
      end
  end.

(** The two views are objects held by the graph: the updates are made on the
    edges, the second on the graph that the first has left (one and the same
    view when both participants are equal). *)
Definition handle_channel_balance_update_message (tn : TokenNetwork)
    (channel_identifier : ChannelIdentifier)
    (updating_participant other_participant : Address)
    (updating_nonce other_nonce updating_capacity other_capacity reveal_timeout' : Z)
    : Outcome unit :=
  match returned (get_channel_views_for_partner tn channel_identifier
                    updating_participant other_participant) with
  | Raise e => raise tn e
  | Ok _ =>
      let to_partner v :=
        update_capacity v (Some updating_nonce) (Some updating_capacity) None
          (Some reveal_timeout') in
      let from_partner v :=
        update_capacity v (Some other_nonce) (Some other_capacity) None None in
      match update_view (G tn) updating_participant other_participant to_partner with
      | None => raise tn KeyError
      | Some g1 =>
          match update_view g1 other_participant updating_participant from_partner with
          | None => raise tn KeyError
          | Some g2 => ret (set_G tn g2) tt
          end
      end
  end.

(** ** Path search *)

(** [visited.get(channel_id, 0)] *)
Definition visited_get (visited : gmap ChannelIdentifier number)
    (cid : ChannelIdentifier) : number :=
  default (num_of_Z 0) (visited !! cid).

Definition edge_weight (visited : gmap ChannelIdentifier number) (attr : EdgeData) : number :=
  num_add (num_of_Z 1) (visited_get visited (channel_id (view attr))).

(** [zip(path[:-1], path[1:])] *)
Definition hops (path : list Address) : list (Address * Address) :=
  combine (removelast path) (tail path).

(** The loop of [check_path_constraints] over the hops of the path. *)
Fixpoint check_hops (g : DiGraph) (value : Z) (hs : list (Address * Address))
    : Result bool :=
  match hs with
  | [] => Ok true
  | (node1, node2) :: hs' =>
      match edge_view g node1 node2 with
      | Raise e => Raise e
      | Ok channel =>
          if value >? capacity channel then Ok false
          else
            match true_div (settle_timeout channel) (reveal_timeout channel) with
            | Raise e => Raise e
            | Ok ratio =>
                if negb (Qle_bool DEFAULT_SETTLE_TO_REVEAL_TIMEOUT_RATIO ratio)
                then Ok false
                else check_hops g value hs'
            end
      end
  end.

Definition check_path_constraints (g : DiGraph) (value : Z) (path : list Address)
    : Result bool :=
  check_hops g value (hops path).

(** [networkx.shortest_simple_paths(G, source, target, weight='weight')]:
    the generator raises [NodeNotFound] at its first [next] when an end point
    is not a node. *)
Definition shortest_simple_paths (g : DiGraph) (source target : Address) : PathGen :=
  if decide (source ∈ nodes g) then
    if decide (target ∈ nodes g) then simple_paths_by_weight g source target
    else GenRaise NodeNotFound
  else GenRaise NodeNotFound.

(** "update edge weights": the loop over [G.edges()]. *)
Definition update_edge_weights (g : DiGraph)
    (visited : gmap ChannelIdentifier number) : DiGraph :=
  {| nodes := nodes g;
     edges := (fun edge => {| view := view edge;
                              weight := Some (edge_weight visited edge) |})
              <$> edges g |}.

(** [next(path for path in all_paths if check_path_constraints(value, path)
    and path not in paths)]; [Ok None] is the [StopIteration] that the loop
    catches. *)
Fixpoint next_path (g : DiGraph) (value : Z) (paths : list (list Address))
    (all_paths : PathGen) : Result (option (list Address)) :=
  match all_paths with
  | StopIteration => Ok None
  | GenRaise e => Raise e
  | Yield p rest =>
      match check_path_constraints g value p with
      | Raise e => Raise e
      | Ok false => next_path g value paths rest
      | Ok true =>
          if decide (p ∈ paths) then next_path g value paths rest
          else Ok (Some p)
      end
  end.

(** "update visited penalty dict" *)
Fixpoint penalize (g : DiGraph) (diversity_penalty : number)
    (hs : list (Address * Address)) (visited : gmap ChannelIdentifier number)
    : Result (gmap ChannelIdentifier number) :=
  match hs with
  | [] => Ok visited
  | (node1, node2) :: hs' =>
      match edge_view g node1 node2 with
      | Raise e => Raise e
      | Ok vw =>
          let cid := channel_id vw in
          penalize g diversity_penalty hs'
            (<[cid := num_add (visited_get visited cid) diversity_penalty]> visited)
      end
  end.

(** The local variables of [get_paths] together with the graph. *)
Record Search : Type := {
  graph : DiGraph;
  visited : gmap ChannelIdentifier number;
  paths : list (list Address)
}.

(** What one pass through the body of the [for] loop does. *)
Inductive Pass : Type :=
| Accepted (p : list Address) (s : Search)
| Exhausted (g : DiGraph)
| Failed (g : DiGraph) (e : Exception).

Definition search_pass (source target : Address) (value : Z)
    (diversity_penalty : number) (s : Search) : Pass :=
  let g := update_edge_weights (graph s) (visited s) in
  let all_paths := shortest_simple_paths g source target in
  match next_path g value (paths s) all_paths with
  | Raise e => Failed g e
  | Ok None => Exhausted g
  | Ok (Some p) =>
      match penalize g diversity_penalty (hops p) (visited s) with
      | Raise e => Failed g e
      | Ok visited' =>
          Accepted p {| graph := g; visited := visited'; paths := paths s ++ [p] |}
      end
  end.

(** [for _ in range(n)], with its two [break]s. *)
Fixpoint search_loop (n : nat) (source target : Address) (value max_paths : Z)
    (diversity_penalty : number) (s : Search) : DiGraph * Result (list (list Address)) :=
  match n with
  | O => (graph s, Ok (paths s))
  | S n' =>
      match search_pass source target value diversity_penalty s with
      | Failed g e => (g, Raise e)
      | Exhausted g => (g, Ok (paths s))
      | Accepted _ s' =>
          if Z.of_nat (length (paths s')) >=? max_paths then (graph s', Ok (paths s'))
          else search_loop n' source target value max_paths diversity_penalty s'
      end
  end.

Record PathResult : Set := {
  path : list Address;
  estimated_fee : Z
}.

(** The inner loop of the result assembly: [fee += ...relative_fee]. *)
Fixpoint sum_fees (g : DiGraph) (hs : list (Address * Address)) (fee : Z) : Result Z :=
  match hs with
  | [] => Ok fee
  | (node1, node2) :: hs' =>
      match edge_view g node1 node2 with
      | Raise e => Raise e
      | Ok vw => sum_fees g hs' (fee + relative_fee vw)
      end
  end.

(** The outer loop: the computed [fee] is not what is stored. *)
Fixpoint assemble (g : DiGraph) (ps : list (list Address)) (result : list PathResult)
    : Result (list PathResult) :=
  match ps with
  | [] => Ok result
  | p :: ps' =>
      match sum_fees g (hops p) 0 with
      | Raise e => Raise e
      | Ok fee => assemble g ps' (result ++ [{| path := p; estimated_fee := 0 |}])
      end
  end.

(** The rest of [get_paths] from the top of the [for] loop, with [n] passes
    left. *)
Definition get_paths_from (n : nat) (tn : TokenNetwork) (source target : Address)
    (value max_paths : Z) (diversity_penalty : number) (s : Search)
    : Outcome (list PathResult) :=
  match search_loop n source target value max_paths diversity_penalty s with
  | (g, Raise e) => raise (set_G tn g) e
  | (g, Ok ps) =>
      {| state := set_G tn g; logged := []; returned := assemble g ps [] |}
  end.

Definition get_paths (tn : TokenNetwork) (source target : Address)
    (value max_paths : Z) (diversity_penalty : number) (hop_bias : Q)
    : Outcome (list PathResult) :=
  if negb (Qeq_bool hop_bias 1) then raise tn AssertionError
  else
    let max_paths := Z.min max_paths MAX_PATHS_PER_REQUEST in
    get_paths_from (Z.to_nat max_paths) tn source target value max_paths
      diversity_penalty {| graph := G tn; visited := ∅; paths := [] |}.

End Methods.

(** ** Runs of the event listener and of the search loop *)

Section Runs.
Context {Num : PyNumber} {Lib : Library}.

(** The calls that the chain-event and message collaborators make. *)
Inductive Event : Set :=
| ChannelOpened (cid : ChannelIdentifier) (p1 p2 : Address) (settle : Z)
| ChannelNewDeposit (cid : ChannelIdentifier) (receiver : Address) (total_deposit : Z)
| ChannelClosed (cid : ChannelIdentifier)
| BalanceUpdate (cid : ChannelIdentifier) (updating other : Address)
    (updating_nonce other_nonce updating_capacity other_capacity reveal : Z).

Definition handle (tn : TokenNetwork) (ev : Event) : Outcome unit :=
  match ev with
  | ChannelOpened cid p1 p2 settle => handle_channel_opened_event tn cid p1 p2 settle
  | ChannelNewDeposit cid receiver total =>
      handle_channel_new_deposit_event tn cid receiver total
  | ChannelClosed cid => handle_channel_closed_event tn cid
  | BalanceUpdate cid u o un on uc oc rt =>
      handle_channel_balance_update_message tn cid u o un on uc oc rt
  end.

(** The object after a sequence of handler calls (a caller that has caught
    an exception goes on with the object as the failed call left it). *)
Fixpoint run (tn : TokenNetwork) (evs : list Event) : TokenNetwork :=
  match evs with
  | [] => tn
  | ev :: evs' => run (state (handle tn ev)) evs'
  end.

Definition has_edge (g : DiGraph) (u v : Address) : bool :=
  match edges g !! (u, v) with Some _ => true | None => false end.

Definition has_channel (tn : TokenNetwork) (cid : ChannelIdentifier) : bool :=
  match channel_id_to_addresses tn !! cid with Some _ => true | None => false end.

(** An open event as the chain delivers it: two different participants with
    no live channel between them, and an identifier that is not in use. *)
Definition opens_new_channel (tn : TokenNetwork) (ev : Event) : bool :=
  match ev with
  | ChannelOpened cid p1 p2 _ =>
      negb (has_channel tn cid) && negb (bool_decide (p1 = p2))
      && negb (has_edge (G tn) p1 p2) && negb (has_edge (G tn) p2 p1)
  | _ => true
  end.

Fixpoint opens_new_channels (tn : TokenNetwork) (evs : list Event) : bool :=
  match evs with
  | [] => true
  | ev :: evs' =>
      opens_new_channel tn ev && opens_new_channels (state (handle tn ev)) evs'
  end.

(** The states in which [get_paths] can be at the top of its [for] loop. *)
Inductive search_state (tn : TokenNetwork) (source target : Address) (value : Z)
    (diversity_penalty : number) : Search -> Prop :=
| search_start :
    search_state tn source target value diversity_penalty
      {| graph := G tn; visited := ∅; paths := [] |}
| search_next s p s' :
    search_state tn source target value diversity_penalty s ->
    search_pass source target value diversity_penalty s = Accepted p s' ->
    search_state tn source target value diversity_penalty s'.

(** The ['weight'] attribute of the edge from [u] to [v]: [None] without
    such an edge, [Some None] for an edge without the attribute. *)
Definition weight_attribute (g : DiGraph) (u v : Address) : option (option number) :=
  weight <$> edges g !! (u, v).

(** The channel identifier of the view on the edge from [u] to [v]. *)
Definition edge_channel (g : DiGraph) (u v : Address) : option ChannelIdentifier :=
  channel_id <$> (view <$> edges g !! (u, v)).

(** The channel identifiers met along the hops of a path, one per hop. *)
Definition hop_channels (g : DiGraph) (hs : list (Address * Address))
    : list ChannelIdentifier :=
  omap (fun '(u, v) => edge_channel g u v) hs.

Definition channels_along (g : DiGraph) (p : list Address) : list ChannelIdentifier :=
  hop_channels g (hops p).

(** The penalty that [n] traversals add, one addition at a time. *)
Definition penalized (diversity_penalty : number) (n : nat) (start : number) : number :=
  Nat.iter n (fun x => num_add x diversity_penalty) start.

(** The mapping and the graph agree: a registered channel has its two
    edges, between two different participants, and every edge belongs to a
    registered channel between its end points. *)
Definition channels_consistent (tn : TokenNetwork) : Prop :=
  (forall cid p1 p2,
      channel_id_to_addresses tn !! cid = Some (p1, p2) ->
      p1 <> p2
      /\ edge_channel (G tn) p1 p2 = Some cid
      /\ edge_channel (G tn) p2 p1 = Some cid)
  /\ (forall u v cid,
        edge_channel (G tn) u v = Some cid ->
        channel_id_to_addresses tn !! cid = Some (u, v)
        \/ channel_id_to_addresses tn !! cid = Some (v, u)).

(** The sum that the result assembly computes for a path. *)
Definition fee_along (g : DiGraph) (p : list Address) : Z :=
  foldr Z.add 0 (omap (fun '(u, v) => relative_fee <$> (view <$> edges g !! (u, v))) (hops p)).

(** The graph [g'] has the nodes, the edges and the Channel Views of [g]:
    they differ in the ['weight'] attributes at most. *)
Definition same_channels (g g' : DiGraph) : Prop :=
  nodes g' = nodes g /\ view <$> edges g' = view <$> edges g.

(** What holds of the paths collected so far, at the top of the loop. *)
Definition collected_ok (g0 : DiGraph) (value : Z) (s : Search) : Prop :=
  same_channels g0 (graph s) /\ NoDup (paths s)
  /\ Forall (fun p => check_path_constraints g0 value p = Ok true) (paths s).

(** The dictionary that the result assembly appends for a path. *)
Definition entry (p : list Address) : PathResult := {| path := p; estimated_fee := 0 |}.

End Runs.

(** ** The rest of the class, and what the further properties speak of *)

Section Further.
Context {Num : PyNumber} {Lib : Library}.

(** [len(self.channel_id_to_addresses)] *)
Definition num_channels (tn : TokenNetwork) : nat :=
  size (channel_id_to_addresses tn).

(** [__repr__]: the two f-strings, joined. *)
Definition TokenNetwork_repr (tn : TokenNetwork) : string :=
  "<TokenNetwork address = " +:+ address tn +:+ " "
  +:+ "num_channels = " +:+ pretty (num_channels tn) +:+ ">".

(** The paths that a generator yields before it ends. *)
Fixpoint yielded (gen : PathGen) : list (list Address) :=
  match gen with
  | Yield p rest => p :: yielded rest
  | StopIteration | GenRaise _ => []
  end.

(** The exception, if any, with which a generator ends. *)
Fixpoint gen_end (gen : PathGen) : option Exception :=
  match gen with
  | Yield _ rest => gen_end rest
  | StopIteration => None
  | GenRaise e => Some e
  end.

(** What [check_path_constraints] asks of one hop. *)
Definition hop_feasible (g : DiGraph) (value : Z) (h : Address * Address) : Prop :=
  exists vw,
    edge_view g h.1 h.2 = Ok vw
    /\ value <= capacity vw
    /\ exists ratio,
         true_div (settle_timeout vw) (reveal_timeout vw) = Ok ratio
         /\ (DEFAULT_SETTLE_TO_REVEAL_TIMEOUT_RATIO <= ratio)%Q.

(** An update of a view that leaves its identity alone. *)
Definition keeps_identity (f : ChannelView -> ChannelView) : Prop :=
  forall vw,
    channel_id (f vw) = channel_id vw
    /\ participant1 (f vw) = participant1 vw
    /\ participant2 (f vw) = participant2 vw.

(** Every view in the graph names, as its two participants and in their
    order, the pair that the mapping has for its channel identifier. *)
Definition views_name_participants (tn : TokenNetwork) : Prop :=
  forall u v d,
    edges (G tn) !! (u, v) = Some d ->
    channel_id_to_addresses tn !! channel_id (view d)
    = Some (participant1 (view d), participant2 (view d)).

(** Every participant in the mapping and every node of the graph is a
    checksum address. *)
Definition addresses_checked (tn : TokenNetwork) : Prop :=
  (forall cid p1 p2,
      channel_id_to_addresses tn !! cid = Some (p1, p2) ->
      is_checksum_address p1 = true /\ is_checksum_address p2 = true)
  /\ (forall x, x ∈ nodes (G tn) -> is_checksum_address x = true).

(** Every end point of an edge is a node. *)
Definition edges_between_nodes (g : DiGraph) : Prop :=
  forall u v, is_Some (edges g !! (u, v)) -> u ∈ nodes g /\ v ∈ nodes g.

End Further.

(** ** A library to run the program on

    Python [int] weights, and a stand-in for the libraries: the format half
    of [is_checksum_address] (the addresses used below are the reference
    addresses of EIP-55, which the full check accepts), sample values of the
    configuration, and an enumeration of all simple paths by increasing
    weight that raises [NetworkXNoPath] when there is none. *)

#[export] Instance Z_number : PyNumber :=
  {| number := Z; num_of_Z := fun z => z; num_add := Z.add |}.

Definition is_hex_digit (c : ascii) : bool :=
  let n := nat_of_ascii c in
  ((48 <=? n) && (n <=? 57) || (65 <=? n) && (n <=? 70) || (97 <=? n) && (n <=? 102))%nat.

Fixpoint all_hex (s : string) : bool :=
  match s with
  | EmptyString => true
  | String c s' => is_hex_digit c && all_hex s'
  end.

Definition is_hex_address (a : Address) : bool :=
  match a with
  | String "0" (String "x" s) => (String.length s =? 40)%nat && all_hex s
  | _ => false
  end.

Definition successors (g : DiGraph) (u : Address) : list Address :=
  omap (fun '((a, b), _) => if decide (a = u) then Some b else None)
       (map_to_list (edges g)).

Fixpoint simple_paths (fuel : nat) (g : DiGraph) (seen : list Address)
    (u target : Address) : list (list Address) :=
  if decide (u = target) then [[u]]
  else
    match fuel with
    | O => []
    | S fuel' =>
        flat_map (fun v =>
                    if decide (v ∈ u :: seen) then []
                    else map (cons u) (simple_paths fuel' g (u :: seen) v target))
                 (successors g u)
    end.

Definition path_weight (g : DiGraph) (p : list Address) : Z :=
  foldr Z.add 0
    (map (fun '(u, v) =>
            match edges g !! (u, v) with
            | Some {| weight := Some w |} => w
            | _ => 1
            end) (hops p)).

Fixpoint insert_by (w : list Address -> Z) (p : list Address)
    (l : list (list Address)) : list (list Address) :=
  match l with
  | [] => [p]
  | q :: l' => if w p <=? w q then p :: q :: l' else q :: insert_by w p l'
  end.

Definition enumerate_simple_paths (g : DiGraph) (source target : Address) : PathGen :=
  match foldr (insert_by (path_weight g)) []
              (simple_paths (size (nodes g)) g [] source target) with
  | [] => GenRaise NetworkXNoPath
  | ps => foldr Yield StopIteration ps
  end.

#[export] Instance sample_library : Library :=
  {| is_checksum_address := is_hex_address;
     DEFAULT_SETTLE_TO_REVEAL_TIMEOUT_RATIO := 2;
     MAX_PATHS_PER_REQUEST := 25;
     DEFAULT_REVEAL_TIMEOUT := 10;
     simple_paths_by_weight := enumerate_simple_paths |}.

(** Four participants and a token network without channels. *)
Definition alice : Address := "0x5aAeb6053F3E94C9b9A09f33669435E7Ef1BeAed".
Definition bob : Address := "0xfB6916095ca1df60bB79Ce92cE3Ea74c37c5d359".
Definition carol : Address := "0xdbF03B407c01E7cD3CBea99509d93f8DDDC8C6FB".
Definition dave : Address := "0xD1220A0cf47c7B9Be7A2E6BA89F429762e7b9aDb".

Definition empty_network : TokenNetwork := TokenNetwork_init dave dave.

(** The first scenario of the spec: channel 1 between alice and bob with
    settle timeout 100, 100 deposited by alice and 50 by bob. *)
Definition one_channel : TokenNetwork :=
  run empty_network
    [ChannelOpened 1 alice bob 100; ChannelNewDeposit 1 alice 100;
     ChannelNewDeposit 1 bob 50].

(** The second scenario: a chain alice - bob - carol and the direct channel
    alice - carol, all with ample capacity. *)
Definition triangle : TokenNetwork :=
  run empty_network
    [ChannelOpened 1 alice bob 100; ChannelOpened 2 bob carol 100;
     ChannelOpened 3 alice carol 100;
     ChannelNewDeposit 1 alice 100; ChannelNewDeposit 1 bob 100;
     ChannelNewDeposit 2 bob 100; ChannelNewDeposit 2 carol 100;
     ChannelNewDeposit 3 alice 100; ChannelNewDeposit 3 carol 100].

(** [one_channel] after both participants have set a relative fee of 5 on
    their views (the views are objects that the graph hands out). *)
Definition with_relative_fee (fee : Z) (e : EdgeData) : EdgeData :=
  {| view := {| channel_id := channel_id (view e);
                participant1 := participant1 (view e);
                participant2 := participant2 (view e);
                deposit := deposit (view e);
                capacity := capacity (view e);
                nonce := nonce (view e);
                settle_timeout := settle_timeout (view e);
                reveal_timeout := reveal_timeout (view e);
                relative_fee := fee |};
     weight := weight e |}.

Definition tolled_channel : TokenNetwork :=
  set_G one_channel
    {| nodes := nodes (G one_channel);
       edges := with_relative_fee 5 <$> edges (G one_channel) |}.

(** Channel 1 between alice and bob with a settle timeout of [10 ^ 400]
    and, after a balance update, a reveal timeout of 1 from alice to bob: the
    quotient is too large for a float. *)
Definition steep_channel : TokenNetwork :=
  run empty_network
    [ChannelOpened 1 alice bob (10 ^ 400); BalanceUpdate 1 alice bob 1 1 100 100 1].

(** Channel 1 between alice and bob with a settle timeout of
    [2 * 10 ^ 17 - 1] and, after a balance update, a reveal timeout of
    [10 ^ 17] from alice to bob: the quotient is below 2 and rounds to 2.0. *)
Definition rounded_channel : TokenNetwork :=
  run empty_network
    [ChannelOpened 1 alice bob (2 * 10 ^ 17 - 1);
     BalanceUpdate 1 alice bob 1 1 100 100 (10 ^ 17)].

(** Channel 2 opened between alice and bob while channel 1 is open between
    the same two. *)
Definition doubly_opened : TokenNetwork :=
  run empty_network [ChannelOpened 1 alice bob 100; ChannelOpened 2 alice bob 100].

(** * Properties *)

Section Search_facts.
Context {Num : PyNumber} {Lib : Library}.

(** ** Hops *)

Lemma hops_cons2 (a b : Address) (l : list Address) :
  hops (a :: b :: l) = (a, b) :: hops (b :: l).
Proof. reflexivity. Qed.

Lemma hops_single (a : Address) : hops [a] = [].
Proof. reflexivity. Qed.

(** ** True division *)

Lemma true_div_raise a b e :
  true_div a b = Raise e ->
  (e = ZeroDivisionError /\ b = 0) \/ (e = OverflowError /\ b <> 0).
Proof.
  unfold true_div. destruct (b =? 0) eqn:Eb.
  - intros H; inversion H. left. split; [reflexivity|]. now apply Z.eqb_eq.
  - apply Z.eqb_neq in Eb. destruct (a =? 0); [discriminate|].
    destruct (nearest_double _ _); [discriminate|].
    intros H; inversion H. right. auto.
Qed.

Lemma true_div_Ok a b q : true_div a b = Ok q -> b <> 0.
Proof.
  unfold true_div. destruct (b =? 0) eqn:Eb; [discriminate|].
  intros _. now apply Z.eqb_neq.
Qed.

(** The division at work: an exact quotient, a rounded one (the double
    nearest to one third is [6004799503160661 / 2 ^ 54]), a quotient just
    below 2 that rounds to 2.0, the two exceptions, and the largest quotient
    that is not an overflow. *)
Lemma true_div_examples :
  true_div 100 10 = Ok (dyadic 5629499534213120 (-49))
  /\ true_div 1 3 = Ok (dyadic 6004799503160661 (-54))
  /\ true_div (2 * 10 ^ 17 - 1) (10 ^ 17) = Ok (dyadic (2 ^ 53) (-52))
  /\ true_div (-7) 2 = Ok (- dyadic 7881299347898368 (-51))%Q
  /\ true_div 7 0 = Raise ZeroDivisionError
  /\ true_div (10 ^ 400) 1 = Raise OverflowError
  /\ true_div (2 ^ 1024 - 2 ^ 970) 1 = Raise OverflowError
  /\ true_div (2 ^ 1024 - 2 ^ 970 - 1) 1 = Ok (dyadic (2 ^ 53 - 1) 971)
  /\ true_div 1 (2 ^ 1075) = Ok (dyadic 0 (-1074)).
Proof. vm_compute. repeat split. Qed.

(** ** Graphs that differ in their weights only *)

Lemma same_channels_refl g : same_channels g g.
Proof. split; reflexivity. Qed.

Lemma same_channels_trans g1 g2 g3 :
  same_channels g1 g2 -> same_channels g2 g3 -> same_channels g1 g3.
Proof. intros [? ?] [? ?]; split; congruence. Qed.

Lemma update_edge_weights_same g vis : same_channels g (update_edge_weights g vis).
Proof.
  split; [reflexivity|]. cbn.
  rewrite <- map_fmap_compose. apply map_fmap_ext. reflexivity.
Qed.

Lemma same_channels_view g g' u v :
  same_channels g g' -> edge_view g' u v = edge_view g u v.
Proof.
  intros [_ H]. unfold edge_view.
  assert (E : (view <$> edges g') !! (u, v) = (view <$> edges g) !! (u, v)) by (rewrite H; reflexivity).
  rewrite !lookup_fmap in E.
  destruct (edges g' !! (u, v)), (edges g !! (u, v)); cbn in E; congruence.
Qed.

Lemma check_hops_same g g' value hs :
  same_channels g g' -> check_hops g' value hs = check_hops g value hs.
Proof.
  intros H. induction hs as [|[a b] hs IH]; cbn; [reflexivity|].
  rewrite (same_channels_view _ _ _ _ H), IH. reflexivity.
Qed.

Lemma sum_fees_same g g' hs fee :
  same_channels g g' -> sum_fees g' hs fee = sum_fees g hs fee.
Proof.
  intros H. revert fee. induction hs as [|[a b] hs IH]; intros fee; cbn; [reflexivity|].
  rewrite (same_channels_view _ _ _ _ H). destruct (edge_view g a b); auto.
Qed.

(** ** One pass *)

Lemma search_pass_accepted source target value pen s p s' :
  search_pass source target value pen s = Accepted p s' ->
  let g := update_edge_weights (graph s) (visited s) in
  next_path g value (paths s) (shortest_simple_paths g source target) = Ok (Some p)
  /\ penalize g pen (hops p) (visited s) = Ok (visited s')
  /\ graph s' = g /\ paths s' = paths s ++ [p].
Proof.
  unfold search_pass. cbv zeta.
  destruct (next_path _ value (paths s) _) as [[q|]|e]; try discriminate.
  destruct (penalize _ pen (hops q) (visited s)) as [vis|e] eqn:E; try discriminate.
  intros H; inversion H; subst; cbn. auto.
Qed.

Lemma search_pass_graph source target value pen s :
  match search_pass source target value pen s with
  | Accepted _ s' => graph s' = update_edge_weights (graph s) (visited s)
  | Exhausted g | Failed g _ => g = update_edge_weights (graph s) (visited s)
  end.
Proof.
  unfold search_pass.
  destruct (next_path _ value (paths s) _) as [[q|]|e]; try reflexivity.
  destruct (penalize _ pen (hops q) (visited s)) as [vis|e]; reflexivity.
Qed.

Lemma next_path_found g value ps gen p :
  next_path g value ps gen = Ok (Some p) ->
  check_path_constraints g value p = Ok true /\ p ∉ ps.
Proof.
  induction gen as [q rest IH| |e]; cbn; try discriminate.
  destruct (check_path_constraints g value q) as [[|]|e] eqn:E.
  - destruct (decide (q ∈ ps)); [exact IH|].
    intros H; inversion H; subst; auto.
  - exact IH.
  - discriminate.
Qed.

Lemma search_state_collected tn source target value pen s :
  search_state tn source target value pen s -> collected_ok (G tn) value s.
Proof.
  induction 1 as [|s p s' _ IH Hp].
  - repeat split; cbn; auto using NoDup_nil_2.
  - destruct IH as (Hg & Hnd & Hall).
    apply search_pass_accepted in Hp as (Hnext & _ & Hg' & Hps).
    apply next_path_found in Hnext as [Hchk Hnotin].
    assert (Hsame : same_channels (G tn) (update_edge_weights (graph s) (visited s)))
      by (eapply same_channels_trans; [exact Hg | apply update_edge_weights_same]).
    repeat split.
    + rewrite Hg'. apply Hsame.
    + rewrite Hg'. apply Hsame.
    + rewrite Hps. apply NoDup_app. repeat split; auto.
      * intros x Hx Hx'. apply list_elem_of_singleton in Hx'. subst. auto.
      * apply NoDup_singleton.
    + rewrite Hps. apply Forall_app. split; auto.
      constructor; auto.
      unfold check_path_constraints in *.
      rewrite <- (check_hops_same _ _ _ _ Hsame). exact Hchk.
Qed.

(** ** The loop *)

Lemma search_loop_state tn source target value pen n max_paths s g r :
  search_state tn source target value pen s ->
  search_loop n source target value max_paths pen s = (g, r) ->
  same_channels (G tn) g
  /\ forall ps, r = Ok ps ->
       exists s', search_state tn source target value pen s' /\ paths s' = ps.
Proof.
  revert s. induction n as [|n IH]; intros s Hs; cbn.
  - intros H; inversion H; subst. split.
    + apply (search_state_collected _ _ _ _ _ _ Hs).
    + intros ps E; inversion E; subst; eauto.
  - pose proof (search_pass_graph source target value pen s) as Hg.
    assert (Hsame : same_channels (G tn) (update_edge_weights (graph s) (visited s))).
    { eapply same_channels_trans; [apply (search_state_collected _ _ _ _ _ _ Hs)|].
      apply update_edge_weights_same. }
    destruct (search_pass source target value pen s) as [p s'|g'|g' e] eqn:E.
    + assert (Hs' : search_state tn source target value pen s') by (econstructor; eauto).
      destruct (Z.of_nat (length (paths s')) >=? max_paths).
      * intros H; inversion H; subst. split.
        -- rewrite Hg; exact Hsame.
        -- intros ps E'; inversion E'; subst; eauto.
      * intros H. eapply IH; eauto.
    + intros H; inversion H; subst. split; auto.
      intros ps E'; inversion E'; subst; eauto.
    + intros H; inversion H; subst. split; auto. discriminate.
Qed.

Lemma search_loop_length n source target value max_paths pen s g ps :
  search_loop n source target value max_paths pen s = (g, Ok ps) ->
  (length ps <= length (paths s) + n)%nat.
Proof.
  revert s. induction n as [|n IH]; intros s; cbn.
  - intros H; inversion H; subst. lia.
  - destruct (search_pass source target value pen s) as [p s'|g'|g' e] eqn:E.
    + apply search_pass_accepted in E as (_ & _ & _ & Hps).
      assert (length (paths s') = S (length (paths s)))
        by (rewrite Hps, length_app; cbn; lia).
      destruct (Z.of_nat (length (paths s')) >=? max_paths).
      * intros H'; inversion H'; subst. lia.
      * intros H'. apply IH in H'. lia.
    + intros H; inversion H; subst. lia.
    + discriminate.
Qed.

(** ** Result assembly *)

Lemma assemble_entries g ps acc r :
  assemble g ps acc = Ok r -> r = acc ++ map entry ps.
Proof.
  revert acc. induction ps as [|p ps IH]; intros acc; cbn.
  - intros H; inversion H. now rewrite app_nil_r.
  - destruct (sum_fees g (hops p) 0); try discriminate.
    intros H. apply IH in H. rewrite H, <- app_assoc. reflexivity.
Qed.

Lemma check_hops_sum_fees g value hs fee :
  check_hops g value hs = Ok true -> exists total, sum_fees g hs fee = Ok total.
Proof.
  revert fee. induction hs as [|[a b] hs IH]; intros fee; cbn; eauto.
  destruct (edge_view g a b) as [vw|e]; try discriminate.
  destruct (value >? capacity vw); try discriminate.
  destruct (true_div _ _) as [ratio|]; try discriminate.
  destruct (negb _); try discriminate. auto.
Qed.

Lemma assemble_ok g value ps acc :
  Forall (fun p => check_path_constraints g value p = Ok true) ps ->
  assemble g ps acc = Ok (acc ++ map entry ps).
Proof.
  revert acc. induction ps as [|p ps IH]; intros acc H; cbn.
  - now rewrite app_nil_r.
  - inversion H as [|? ? Hp Hps]; subst.
    destruct (check_hops_sum_fees g value (hops p) 0 Hp) as [total ->].
    rewrite IH, <- app_assoc; auto.
Qed.

Lemma get_paths_from_returned n tn source target value max_paths pen s r :
  search_state tn source target value pen s ->
  returned (get_paths_from n tn source target value max_paths pen s) = Ok r ->
  exists s', search_state tn source target value pen s'
             /\ r = map entry (paths s')
             /\ (length (paths s') <= length (paths s) + n)%nat.
Proof.
  intros Hs. unfold get_paths_from.
  destruct (search_loop n source target value max_paths pen s) as [g [ps|e]] eqn:E; cbn;
    try discriminate.
  intros Hr. apply assemble_entries in Hr. cbn in Hr.
  destruct (search_loop_state _ _ _ _ _ _ _ _ _ _ Hs E) as (_ & Hex).
  destruct (Hex ps eq_refl) as (s' & Hs' & Hps).
  exists s'. subst ps. repeat split; auto.
  eapply search_loop_length; eauto.
Qed.

Lemma get_paths_returned tn source target value max_paths pen hop_bias r :
  returned (get_paths tn source target value max_paths pen hop_bias) = Ok r ->
  exists s', search_state tn source target value pen s'
             /\ r = map entry (paths s')
             /\ (length (paths s') <= Z.to_nat (Z.min max_paths MAX_PATHS_PER_REQUEST))%nat.
Proof.
  unfold get_paths. destruct (negb (Qeq_bool hop_bias 1)); cbn; try discriminate.
  intros H. eapply get_paths_from_returned in H; [|constructor].
  destruct H as (s' & ? & ? & ?). exists s'. cbn in *. auto.
Qed.

End Search_facts.

Section Search_claims.
Context {Num : PyNumber} {Lib : Library}.

Lemma get_paths_from_state n tn source target value max_paths pen s :
  search_state tn source target value pen s ->
  exists g, state (get_paths_from n tn source target value max_paths pen s) = set_G tn g
            /\ same_channels (G tn) g.
Proof.
  intros Hs. unfold get_paths_from.
  destruct (search_loop n source target value max_paths pen s) as [g r] eqn:E.
  destruct (search_loop_state _ _ _ _ _ _ _ _ _ _ Hs E) as (Hg & _).
  exists g. destruct r; cbn; auto.
Qed.

Lemma get_paths_state tn source target value max_paths pen hop_bias :
  exists g, state (get_paths tn source target value max_paths pen hop_bias) = set_G tn g
            /\ same_channels (G tn) g.
Proof.
  unfold get_paths. destruct (negb (Qeq_bool hop_bias 1)).
  - exists (G tn). split; [destruct tn; reflexivity | apply same_channels_refl].
  - apply get_paths_from_state. constructor.
Qed.

Lemma check_hops_feasible g value hs u v :
  check_hops g value hs = Ok true -> (u, v) ∈ hs ->
  exists vw, edge_view g u v = Ok vw
    /\ value <= capacity vw
    /\ exists ratio,
         true_div (settle_timeout vw) (reveal_timeout vw) = Ok ratio
         /\ (DEFAULT_SETTLE_TO_REVEAL_TIMEOUT_RATIO <= ratio)%Q.
Proof.
  induction hs as [|[a b] hs IH]; cbn; intros H Hin.
  - inversion Hin.
  - destruct (edge_view g a b) as [vw|e] eqn:Ev; try discriminate.
    destruct (value >? capacity vw) eqn:Ec; try discriminate.
    destruct (true_div _ _) as [ratio|] eqn:Er; try discriminate.
    destruct (Qle_bool _ _) eqn:Eq; cbn in H; try discriminate.
    apply elem_of_cons in Hin as [Heq|Hin]; [|auto].
    inversion Heq; subst. exists vw. split; [exact Ev|]. split.
    + rewrite Z.gtb_ltb in Ec. apply Z.ltb_ge in Ec. exact Ec.
    + exists ratio. split; [exact Er|]. apply Qle_bool_iff. exact Eq.
Qed.

(** C3 (as amended). [get_paths] leaves the nodes, the edges, the Channel
    View of every edge, the channel-id-to-addresses mapping and the other
    attributes of the token network as they were; the one thing it writes
    into the graph is the ['weight'] attribute of the edges. *)
Theorem get_paths_keeps_channels tn source target value max_paths pen hop_bias :
  let tn' := state (get_paths tn source target value max_paths pen hop_bias) in
  channel_id_to_addresses tn' = channel_id_to_addresses tn
  /\ nodes (G tn') = nodes (G tn)
  /\ dom (edges (G tn')) = dom (edges (G tn))
  /\ view <$> edges (G tn') = view <$> edges (G tn)
  /\ address tn' = address tn
  /\ token_address tn' = token_address tn
  /\ max_relative_fee tn' = max_relative_fee tn.
Proof.
  destruct (get_paths_state tn source target value max_paths pen hop_bias)
    as (g & -> & Hn & Hv).
  cbn. repeat split; auto.
  rewrite <- (dom_fmap_L view (edges g)), Hv. apply dom_fmap_L.
Qed.

(** C5 (as amended). Every hop of every path that [get_paths] returns for
    [value] is an edge of the graph (before and after the call) whose Channel
    View has a capacity of at least [value] and for which the quotient
    [settle_timeout / reveal_timeout] that the code computes, the exact
    quotient rounded to the nearest double, is at least
    [DEFAULT_SETTLE_TO_REVEAL_TIMEOUT_RATIO]. *)
Theorem get_paths_hops_feasible tn source target value max_paths pen hop_bias
    result r u v :
  returned (get_paths tn source target value max_paths pen hop_bias) = Ok result ->
  r ∈ result ->
  (u, v) ∈ hops (path r) ->
  exists vw,
    edge_view (G tn) u v = Ok vw
    /\ edge_view (G (state (get_paths tn source target value max_paths pen hop_bias))) u v
       = Ok vw
    /\ value <= capacity vw
    /\ reveal_timeout vw <> 0
    /\ exists ratio,
         true_div (settle_timeout vw) (reveal_timeout vw) = Ok ratio
         /\ (DEFAULT_SETTLE_TO_REVEAL_TIMEOUT_RATIO <= ratio)%Q.
Proof.
  intros Hret Hr Huv.
  apply get_paths_returned in Hret as (s & Hs & -> & _).
  apply search_state_collected in Hs as (_ & _ & Hall).
  apply list_elem_of_fmap in Hr as (p & -> & Hp).
  rewrite Forall_forall in Hall. specialize (Hall p).
  assert (Hchk : check_path_constraints (G tn) value p = Ok true).
  { apply Hall, Hp. }
  destruct (check_hops_feasible _ _ _ _ _ Hchk Huv) as (vw & Hv & Hc & ratio & Hd & Hq).
  exists vw. split; [exact Hv|]. split.
  - destruct (get_paths_state tn source target value max_paths pen hop_bias)
      as (g & -> & Hsame).
    cbn. rewrite (same_channels_view _ _ _ _ Hsame). exact Hv.
  - split; [exact Hc|]. split; [apply (true_div_Ok _ _ _ Hd)|].
    exists ratio. auto.
Qed.

(** C7. The paths of the entries that [get_paths] returns are pairwise
    different node sequences. *)
Theorem get_paths_no_duplicates tn source target value max_paths pen hop_bias result :
  returned (get_paths tn source target value max_paths pen hop_bias) = Ok result ->
  NoDup (path <$> result).
Proof.
  intros Hret.
  apply get_paths_returned in Hret as (s & Hs & -> & _).
  apply search_state_collected in Hs as (_ & Hnd & _).
  rewrite <- list_fmap_compose.
  replace (path ∘ entry) with (@id (list Address)) by reflexivity.
  rewrite list_fmap_id. exact Hnd.
Qed.

(** C9. [get_paths] returns at most [min(max_paths, MAX_PATHS_PER_REQUEST)]
    entries; and when, at any pass of its loop, the enumeration of shortest
    simple paths ends before a candidate is accepted, the method returns
    normally with the entries of the paths accepted so far (none, when this
    happens in the first pass). *)
Theorem get_paths_bounded_and_exhaustion tn source target value max_paths pen hop_bias :
  (forall result,
      returned (get_paths tn source target value max_paths pen hop_bias) = Ok result ->
      (length result <= Z.to_nat (Z.min max_paths MAX_PATHS_PER_REQUEST))%nat)
  /\ (forall s n limit,
         search_state tn source target value pen s ->
         next_path (update_edge_weights (graph s) (visited s)) value (paths s)
           (shortest_simple_paths (update_edge_weights (graph s) (visited s))
              source target) = Ok None ->
         returned (get_paths_from (S n) tn source target value limit pen s)
         = Ok (entry <$> paths s))
  /\ (Qeq_bool hop_bias 1 = true ->
      1 <= Z.min max_paths MAX_PATHS_PER_REQUEST ->
      next_path (update_edge_weights (G tn) ∅) value []
        (shortest_simple_paths (update_edge_weights (G tn) ∅) source target) = Ok None ->
      returned (get_paths tn source target value max_paths pen hop_bias) = Ok []).
Proof.
  assert (Hstop : forall s n limit,
             search_state tn source target value pen s ->
             next_path (update_edge_weights (graph s) (visited s)) value (paths s)
               (shortest_simple_paths (update_edge_weights (graph s) (visited s))
                  source target) = Ok None ->
             returned (get_paths_from (S n) tn source target value limit pen s)
             = Ok (entry <$> paths s)).
  { intros s n limit Hs Hnone.
    unfold get_paths_from. cbn. unfold search_pass. rewrite Hnone. cbn.
    apply search_state_collected in Hs as (Hsame & _ & Hall).
    assert (Hsame' : same_channels (G tn) (update_edge_weights (graph s) (visited s)))
      by (eapply same_channels_trans; [exact Hsame | apply update_edge_weights_same]).
    rewrite (assemble_ok _ value); [reflexivity|].
    eapply Forall_impl; [exact Hall|]. cbn. intros p Hp.
    unfold check_path_constraints in *.
    rewrite (check_hops_same _ _ _ _ Hsame'). exact Hp. }
  repeat split.
  - intros result Hret.
    apply get_paths_returned in Hret as (s & _ & -> & Hlen).
    rewrite length_map. exact Hlen.
  - apply Hstop.
  - intros Hhop Hmin Hnone. unfold get_paths. rewrite Hhop. cbn [negb].
    destruct (Z.to_nat (Z.min max_paths MAX_PATHS_PER_REQUEST)) as [|n] eqn:En; [lia|].
    rewrite (Hstop _ n _ (search_start _ _ _ _ _)); [reflexivity | exact Hnone].
Qed.

(** C10 (as amended). When the source or the target is not a node of the
    graph and at least one pass of the loop is made, that is
    [min(max_paths, MAX_PATHS_PER_REQUEST) >= 1], [get_paths] raises: the
    [NodeNotFound] of the enumeration (or the [AssertionError] of an
    unsupported hop bias). Any exception of a pass leaves the method; only
    the end of the enumeration is caught. *)
Theorem get_paths_unknown_node_raises tn source target value max_paths pen hop_bias :
  1 <= Z.min max_paths MAX_PATHS_PER_REQUEST ->
  source ∉ nodes (G tn) \/ target ∉ nodes (G tn) ->
  returned (get_paths tn source target value max_paths pen hop_bias)
  = Raise (if Qeq_bool hop_bias 1 then NodeNotFound else AssertionError)
  /\ forall s n limit g e,
       search_pass source target value pen s = Failed g e ->
       returned (get_paths_from (S n) tn source target value limit pen s) = Raise e.
Proof.
  intros Hmin Hnode. split.
  - unfold get_paths. destruct (Qeq_bool hop_bias 1); cbn [negb]; [|reflexivity].
    destruct (Z.to_nat (Z.min max_paths MAX_PATHS_PER_REQUEST)) as [|n] eqn:En; [lia|].
    unfold get_paths_from. cbn. unfold search_pass, shortest_simple_paths. cbn.
    destruct Hnode as [Hn|Hn].
    + destruct (decide (source ∈ nodes (G tn))); [contradiction|]. reflexivity.
    + destruct (decide (source ∈ nodes (G tn))); [|reflexivity].
      destruct (decide (target ∈ nodes (G tn))); [contradiction|]. reflexivity.
  - intros s n limit g e Hfail. unfold get_paths_from. cbn. rewrite Hfail. reflexivity.
Qed.

End Search_claims.

Section Penalties.
Context {Num : PyNumber} {Lib : Library}.

Lemma visited_get_insert (vis : gmap ChannelIdentifier number) c x cid :
  visited_get (<[c := x]> vis) cid = if decide (c = cid) then x else visited_get vis cid.
Proof.
  unfold visited_get. destruct (decide (c = cid)) as [->|Hne].
  - now rewrite lookup_insert_eq.
  - now rewrite lookup_insert_ne.
Qed.

Lemma edge_view_channel g u v vw :
  edge_view g u v = Ok vw -> edge_channel g u v = Some (channel_id vw).
Proof.
  unfold edge_view, edge_channel. destruct (edges g !! (u, v)); cbn; [|discriminate].
  intros H; inversion H; reflexivity.
Qed.

Lemma penalized_succ_r pen n x :
  penalized pen (S n) x = penalized pen n (num_add x pen).
Proof. exact (Nat.iter_succ_r n (fun y => num_add y pen) x). Qed.

Lemma hop_channels_cons g a b hs c :
  edge_channel g a b = Some c ->
  hop_channels g ((a, b) :: hs) = c :: hop_channels g hs.
Proof. intros H. unfold hop_channels. cbn. now rewrite H. Qed.

Lemma penalize_visited g pen hs vis vis' :
  penalize g pen hs vis = Ok vis' ->
  forall cid,
    visited_get vis' cid
    = penalized pen (count_occ Z.eq_dec (hop_channels g hs) cid) (visited_get vis cid).
Proof.
  revert vis. induction hs as [|[a b] hs IH]; intros vis; cbn [penalize].
  - intros H cid; inversion H; reflexivity.
  - destruct (edge_view g a b) as [vw|e] eqn:Ev; [|discriminate].
    intros H cid. rewrite (IH _ H cid), visited_get_insert.
    rewrite (hop_channels_cons _ _ _ _ _ (edge_view_channel _ _ _ _ Ev)).
    destruct (decide (channel_id vw = cid)) as [Heq|Hne].
    + rewrite (count_occ_cons_eq Z.eq_dec _ Heq), <- Heq. now rewrite penalized_succ_r.
    + now rewrite (count_occ_cons_neq Z.eq_dec _ Hne).
Qed.

Lemma edge_channel_same g g' u v :
  same_channels g g' -> edge_channel g' u v = edge_channel g u v.
Proof.
  intros [_ H]. unfold edge_channel.
  rewrite <- !lookup_fmap, H. reflexivity.
Qed.

Lemma hop_channels_same g g' hs :
  same_channels g g' -> hop_channels g' hs = hop_channels g hs.
Proof.
  intros H. unfold hop_channels. induction hs as [|[a b] hs IH]; cbn; [reflexivity|].
  now rewrite (edge_channel_same _ _ _ _ H), IH.
Qed.

Lemma penalized_add pen a b x :
  penalized pen (a + b) x = penalized pen b (penalized pen a x).
Proof.
  unfold penalized. rewrite Nat.add_comm.
  exact (Nat.iter_add b a (fun y => num_add y pen) x).
Qed.

(** The loop states of a query, one by one: the accumulated penalty of a
    channel identifier, the weights of the graph that the pass searches, and
    what accepting a path adds. *)
Lemma search_state_penalties tn source target value pen s :
  search_state tn source target value pen s ->
  let g := update_edge_weights (graph s) (visited s) in
  (forall cid,
      visited_get (visited s) cid
      = penalized pen
          (count_occ Z.eq_dec (concat (channels_along (G tn) <$> paths s)) cid)
          (num_of_Z 0))
  /\ (forall u v,
         edges g !! (u, v)
         = (fun e => {| view := view e;
                        weight := Some (num_add (num_of_Z 1)
                                          (visited_get (visited s) (channel_id (view e)))) |})
           <$> edges (graph s) !! (u, v))
  /\ match search_pass source target value pen s with
     | Accepted p s' =>
         next_path g value (paths s) (shortest_simple_paths g source target) = Ok (Some p)
         /\ graph s' = g
         /\ forall cid,
              visited_get (visited s') cid
              = penalized pen (count_occ Z.eq_dec (channels_along (G tn) p) cid)
                  (visited_get (visited s) cid)
     | Exhausted g' =>
         next_path g value (paths s) (shortest_simple_paths g source target) = Ok None
         /\ g' = g
     | Failed g' _ => g' = g
     end.
Proof.
  intros Hs. cbv zeta.
  assert (Hstep : forall s0 p s1,
             search_state tn source target value pen s0 ->
             search_pass source target value pen s0 = Accepted p s1 ->
             forall cid,
               visited_get (visited s1) cid
               = penalized pen (count_occ Z.eq_dec (channels_along (G tn) p) cid)
                   (visited_get (visited s0) cid)).
  { intros s0 p s1 Hs0 Hp cid.
    apply search_pass_accepted in Hp as (_ & Hpen & _ & _).
    rewrite (penalize_visited _ _ _ _ _ Hpen cid).
    unfold channels_along. f_equal. f_equal.
    apply hop_channels_same.
    eapply same_channels_trans; [|apply update_edge_weights_same].
    apply (search_state_collected _ _ _ _ _ _ Hs0). }
  split; [|split].
  - induction Hs as [|s0 p s1 Hs0 IH Hp]; intros cid.
    + reflexivity.
    + rewrite (Hstep _ _ _ Hs0 Hp cid), (IH cid).
      pose proof Hp as Hp'.
      apply search_pass_accepted in Hp' as (_ & _ & _ & ->).
      rewrite fmap_app, concat_app, count_occ_app, penalized_add. cbn.
      now rewrite app_nil_r.
  - intros u v. cbn. rewrite lookup_fmap. reflexivity.
  - pose proof (search_pass_graph source target value pen s) as Hg.
    destruct (search_pass source target value pen s) as [p s'|g'|g' e] eqn:E.
    + pose proof (search_pass_accepted _ _ _ _ _ _ _ E) as (Hn & _ & _ & _).
      split; [exact Hn|]. split; [exact Hg|]. apply (Hstep _ _ _ Hs E).
    + split; [|exact Hg]. unfold search_pass in E. cbv zeta in E.
      destruct (next_path _ value (paths s) _) as [[q|]|e]; try discriminate; auto.
      destruct (penalize _ pen (hops q) (visited s)); discriminate.
    + exact Hg.
Qed.

Lemma search_loop_last tn source target value pen n max_paths s g r :
  search_state tn source target value pen s ->
  max_paths = Z.of_nat (length (paths s) + S n) ->
  search_loop (S n) source target value max_paths pen s = (g, r) ->
  exists s_last,
    search_state tn source target value pen s_last
    /\ (length (paths s_last) < length (paths s) + S n)%nat
    /\ g = update_edge_weights (graph s_last) (visited s_last)
    /\ r = match search_pass source target value pen s_last with
           | Accepted _ s' => Ok (paths s')
           | Exhausted _ => Ok (paths s_last)
           | Failed _ e => Raise e
           end
    /\ forall p s', search_pass source target value pen s_last = Accepted p s' ->
                    length (paths s') = (length (paths s) + S n)%nat.
Proof.
  revert s. induction n as [|n IH]; intros s Hs Hmax.
  - cbn [search_loop].
    pose proof (search_pass_graph source target value pen s) as Hg.
    destruct (search_pass source target value pen s) as [p s'|g'|g' e] eqn:E.
    + pose proof (search_pass_accepted _ _ _ _ _ _ _ E) as (_ & _ & _ & Hps).
      assert (Hlen : length (paths s') = (length (paths s) + 1)%nat)
        by (rewrite Hps, length_app; reflexivity).
      replace (Z.of_nat (length (paths s')) >=? max_paths) with true
        by (symmetry; rewrite Z.geb_leb; apply Z.leb_le; lia).
      intros H; inversion H; subst g r. exists s. rewrite E.
      repeat split; auto; try lia.
      intros p0 s0 H0; inversion H0; subst. exact Hlen.
    + intros H; inversion H; subst g r. exists s. rewrite E.
      repeat split; auto; try lia. discriminate.
    + intros H; inversion H; subst g r. exists s. rewrite E.
      repeat split; auto; try lia. discriminate.
  - remember (S n) as n1. cbn [search_loop].
    pose proof (search_pass_graph source target value pen s) as Hg.
    destruct (search_pass source target value pen s) as [p s'|g'|g' e] eqn:E.
    + pose proof (search_pass_accepted _ _ _ _ _ _ _ E) as (_ & _ & _ & Hps).
      assert (Hlen : length (paths s') = (length (paths s) + 1)%nat)
        by (rewrite Hps, length_app; reflexivity).
      replace (Z.of_nat (length (paths s')) >=? max_paths) with false
        by (symmetry; rewrite Z.geb_leb; apply Z.leb_gt; lia).
      intros H. subst n1.
      assert (Hs' : search_state tn source target value pen s') by (econstructor; eauto).
      destruct (IH s' Hs' ltac:(lia) H) as (sl & Hsl & Hl & Hgl & Hr & Hacc).
      exists sl. split; [exact Hsl|]. split; [lia|]. split; [exact Hgl|].
      split; [exact Hr|]. intros p0 s0 H0. rewrite (Hacc _ _ H0). lia.
    + intros H; inversion H; subst g r. exists s. rewrite E.
      repeat split; auto; try lia. discriminate.
    + intros H; inversion H; subst g r. exists s. rewrite E.
      repeat split; auto; try lia. discriminate.
Qed.

(** C6. A call of [get_paths] that makes at least one pass makes its passes
    at the loop states that follow one another, from the first, by accepted
    paths; [s] below is the state at the top of its last pass, which decides
    what the call returns and leaves in the graph. At every such state: the
    accumulated penalty of a channel identifier is the diversity penalty
    added once for every hop on that channel of the paths accepted so far,
    starting from 0; the pass searches the graph in which every edge has
    been given the weight 1 plus the accumulated penalty of its channel
    identifier; and accepting a path adds the diversity penalty to the
    accumulated penalty of the channel identifier of each of its hops. So
    the weights that the call leaves behind are 1 plus the penalties of the
    paths accepted before its last pass. *)
Theorem get_paths_weights_and_penalties tn source target value max_paths pen hop_bias :
  Qeq_bool hop_bias 1 = true ->
  1 <= Z.min max_paths MAX_PATHS_PER_REQUEST ->
  let called := get_paths tn source target value max_paths pen hop_bias in
  let accumulated ps cid :=
    penalized pen (count_occ Z.eq_dec (concat (channels_along (G tn) <$> ps)) cid)
      (num_of_Z 0) in
  exists s,
    search_state tn source target value pen s
    /\ (length (paths s) < Z.to_nat (Z.min max_paths MAX_PATHS_PER_REQUEST))%nat
    /\ state called = set_G tn (update_edge_weights (graph s) (visited s))
    /\ returned called
       = match search_pass source target value pen s with
         | Accepted _ s' => Ok (entry <$> paths s')
         | Exhausted _ => Ok (entry <$> paths s)
         | Failed _ e => Raise e
         end
    /\ (forall p s', search_pass source target value pen s = Accepted p s' ->
                     length (paths s') = Z.to_nat (Z.min max_paths MAX_PATHS_PER_REQUEST))
    /\ (forall u v d,
           edges (G (state called)) !! (u, v) = Some d ->
           weight d = Some (num_add (num_of_Z 1)
                              (accumulated (paths s) (channel_id (view d)))))
    /\ forall s0,
         search_state tn source target value pen s0 ->
         (forall cid, visited_get (visited s0) cid = accumulated (paths s0) cid)
         /\ (forall u v d,
                edges (graph s0) !! (u, v) = Some d ->
                weight_attribute (update_edge_weights (graph s0) (visited s0)) u v
                = Some (Some (num_add (num_of_Z 1)
                                (accumulated (paths s0) (channel_id (view d))))))
         /\ forall p s1,
              search_pass source target value pen s0 = Accepted p s1 ->
              next_path (update_edge_weights (graph s0) (visited s0)) value (paths s0)
                (shortest_simple_paths (update_edge_weights (graph s0) (visited s0))
                   source target) = Ok (Some p)
              /\ paths s1 = paths s0 ++ [p]
              /\ forall cid,
                   visited_get (visited s1) cid
                   = penalized pen (count_occ Z.eq_dec (channels_along (G tn) p) cid)
                       (visited_get (visited s0) cid).
Proof.
  intros Hhop Hmin. cbv zeta.
  destruct (Z.to_nat (Z.min max_paths MAX_PATHS_PER_REQUEST)) as [|n] eqn:En; [lia|].
  destruct (search_loop (S n) source target value (Z.min max_paths MAX_PATHS_PER_REQUEST)
              pen {| graph := G tn; visited := ∅; paths := [] |}) as [g r] eqn:E.
  assert (Hm : Z.min max_paths MAX_PATHS_PER_REQUEST
               = Z.of_nat (length (paths {| graph := G tn; visited := ∅; paths := [] |})
                           + S n)) by (cbn; lia).
  destruct (search_loop_last tn source target value pen n _ _ g r
              (search_start _ _ _ _ _) Hm E)
    as (s & Hs & Hlen & Hg & Hr & Hacc).
  cbn [paths length Nat.add] in Hlen, Hacc.
  assert (Hsame : same_channels (G tn) g).
  { rewrite Hg. eapply same_channels_trans; [|apply update_edge_weights_same].
    apply (search_state_collected _ _ _ _ _ _ Hs). }
  assert (Hval : forall s1, search_state tn source target value pen s1 ->
                   assemble g (paths s1) [] = Ok (entry <$> paths s1)).
  { intros s1 Hs1. apply search_state_collected in Hs1 as (_ & _ & Hall).
    rewrite (assemble_ok _ value); [reflexivity|].
    eapply Forall_impl; [exact Hall|]. cbn. intros p Hp.
    unfold check_path_constraints in *. rewrite (check_hops_same _ _ _ _ Hsame). exact Hp. }
  assert (Hstate : state (get_paths tn source target value max_paths pen hop_bias)
                   = set_G tn g).
  { unfold get_paths. rewrite Hhop. cbn [negb]. rewrite En. unfold get_paths_from.
    rewrite E. destruct r; reflexivity. }
  exists s. split; [exact Hs|]. split; [exact Hlen|]. split; [now rewrite Hstate, Hg|].
  split; [|split; [exact Hacc|split]].
  - unfold get_paths. rewrite Hhop. cbn [negb]. rewrite En. unfold get_paths_from.
    rewrite E, Hr.
    destruct (search_pass source target value pen s) as [p s'|g'|g' e] eqn:Ep; cbn.
    + apply Hval. econstructor; eauto.
    + apply Hval, Hs.
    + reflexivity.
  - intros u v d. rewrite Hstate, Hg. cbn. rewrite lookup_fmap.
    destruct (edges (graph s) !! (u, v)) as [d0|]; cbn; [|discriminate].
    intros H; inversion H; subst d; cbn. unfold edge_weight.
    now rewrite (proj1 (search_state_penalties _ _ _ _ _ _ Hs)).
  - intros s0 Hs0.
    destruct (search_state_penalties _ _ _ _ _ _ Hs0) as (Hvis & Hw & Hpass).
    split; [exact Hvis|]. split.
    + intros u v d Hd. unfold weight_attribute. rewrite Hw, Hd. cbn.
      now rewrite Hvis.
    + intros p s1 Hp. rewrite Hp in Hpass. destruct Hpass as (Hn & _ & Hpen).
      split; [exact Hn|]. split; [|exact Hpen].
      apply search_pass_accepted in Hp. tauto.
Qed.

End Penalties.

Section Handler_facts.
Context {Num : PyNumber} {Lib : Library}.

(** ** The channel identifier on an edge, call by call *)

Lemma edge_channel_add_edge g u v vw a b :
  edge_channel (add_edge g u v vw) a b
  = if decide ((u, v) = (a, b)) then Some (channel_id vw) else edge_channel g a b.
Proof.
  unfold edge_channel, add_edge. cbn. rewrite lookup_insert.
  destruct (decide ((u, v) = (a, b))); reflexivity.
Qed.

Lemma remove_edge_present g u v cid :
  edge_channel g u v = Some cid ->
  remove_edge g u v = Ok {| nodes := nodes g; edges := delete (u, v) (edges g) |}.
Proof.
  unfold edge_channel, remove_edge. destruct (edges g !! (u, v)); [reflexivity|discriminate].
Qed.

Lemma edge_channel_delete g u v a b :
  edge_channel {| nodes := nodes g; edges := delete (u, v) (edges g) |} a b
  = if decide ((u, v) = (a, b)) then None else edge_channel g a b.
Proof.
  unfold edge_channel. cbn. rewrite lookup_delete.
  destruct (decide ((u, v) = (a, b))); reflexivity.
Qed.

Lemma update_view_channel g u v f g' :
  (forall vw, channel_id (f vw) = channel_id vw) ->
  update_view g u v f = Some g' ->
  forall a b, edge_channel g' a b = edge_channel g a b.
Proof.
  intros Hf. unfold update_view.
  destruct (edges g !! (u, v)) as [e|] eqn:E; [|discriminate].
  intros H a b; inversion H; subst; clear H.
  unfold edge_channel. cbn. rewrite lookup_insert.
  destruct (decide ((u, v) = (a, b))) as [Heq|Hne]; [|reflexivity].
  rewrite <- Heq, E. cbn. now rewrite Hf.
Qed.

Lemma update_capacity_channel vw n c d r :
  channel_id (update_capacity vw n c d r) = channel_id vw.
Proof. reflexivity. Qed.

Lemma has_edge_false g u v : has_edge g u v = false -> edge_channel g u v = None.
Proof.
  unfold has_edge, edge_channel. destruct (edges g !! (u, v)); [discriminate|reflexivity].
Qed.

Lemma has_channel_false tn cid :
  has_channel tn cid = false -> channel_id_to_addresses tn !! cid = None.
Proof.
  unfold has_channel. destruct (channel_id_to_addresses tn !! cid); [discriminate|reflexivity].
Qed.

(** ** Consistency of mapping and graph, handler by handler *)

Lemma channels_consistent_views tn g :
  channels_consistent tn ->
  (forall a b, edge_channel g a b = edge_channel (G tn) a b) ->
  channels_consistent (set_G tn g).
Proof.
  intros [H1 H2] Hg. split; cbn.
  - intros cid p1 p2 Hc. rewrite !Hg. auto.
  - intros u v cid. rewrite Hg. auto.
Qed.

Lemma set_G_same tn : set_G tn (G tn) = tn.
Proof. destruct tn; reflexivity. Qed.

Lemma consistent_init a t : channels_consistent (TokenNetwork_init a t).
Proof.
  split; cbn.
  - intros cid p1 p2 H. rewrite lookup_empty in H. discriminate.
  - intros u v cid. unfold edge_channel. cbn. rewrite lookup_empty. discriminate.
Qed.

Lemma consistent_opened tn cid p1 p2 settle :
  channels_consistent tn ->
  opens_new_channel tn (ChannelOpened cid p1 p2 settle) = true ->
  channels_consistent (state (handle_channel_opened_event tn cid p1 p2 settle)).
Proof.
  intros [H1 H2] Hnew. unfold handle_channel_opened_event.
  destruct (negb (is_checksum_address p1)); [split; assumption|].
  destruct (negb (is_checksum_address p2)); [split; assumption|].
  cbn in Hnew.
  apply andb_prop in Hnew as [Hnew He2]. apply andb_prop in Hnew as [Hnew He1].
  apply andb_prop in Hnew as [Hc Hp].
  apply negb_true_iff in Hc, Hp, He1, He2.
  apply has_channel_false in Hc. apply bool_decide_eq_false in Hp.
  apply has_edge_false in He1, He2.
  split; cbn.
  - intros c q1 q2. rewrite lookup_insert.
    destruct (decide (cid = c)) as [<-|Hne].
    + intros H; inversion H; subst. split; [assumption|].
      rewrite !edge_channel_add_edge.
      rewrite (decide_False (P := (q2, q1) = (q1, q2))) by congruence.
      rewrite !decide_True by reflexivity. auto.
    + intros Hq. destruct (H1 _ _ _ Hq) as (Hd & Ha & Hb).
      split; [assumption|].
      rewrite !edge_channel_add_edge.
      rewrite !decide_False; auto; intros Heq; inversion Heq; subst; congruence.
  - intros u v c. rewrite !edge_channel_add_edge, lookup_insert.
    destruct (decide ((p2, p1) = (u, v))) as [Heq|Hn1].
    + inversion Heq; subst. intros H; inversion H; subst.
      rewrite decide_True by reflexivity. auto.
    + destruct (decide ((p1, p2) = (u, v))) as [Heq|Hn2].
      * inversion Heq; subst. intros H; inversion H; subst.
        rewrite decide_True by reflexivity. auto.
      * intros Hu. destruct (decide (cid = c)) as [<-|Hne]; [|auto].
        destruct (H2 _ _ _ Hu); congruence.
Qed.

Lemma consistent_update_view tn u v f :
  channels_consistent tn ->
  (forall vw, channel_id (f vw) = channel_id vw) ->
  forall g, update_view (G tn) u v f = Some g -> channels_consistent (set_G tn g).
Proof.
  intros Hc Hf g Hg. apply channels_consistent_views; [assumption|].
  apply (update_view_channel _ _ _ _ _ Hf Hg).
Qed.

Lemma consistent_deposit tn cid receiver total :
  channels_consistent tn ->
  channels_consistent (state (handle_channel_new_deposit_event tn cid receiver total)).
Proof.
  intros Hc. unfold handle_channel_new_deposit_event.
  destruct (negb (is_checksum_address receiver)); [assumption|].
  destruct (channel_id_to_addresses tn !! cid) as [[p1 p2]|]; [|assumption].
  destruct (decide (receiver = p1)).
  - destruct (update_view (G tn) p1 p2 _) eqn:E; [|assumption].
    apply (consistent_update_view _ _ _ _ Hc
             (fun vw => update_capacity_channel vw _ _ _ _) _ E).
  - destruct (decide (receiver = p2)); [|assumption].
    destruct (update_view (G tn) p2 p1 _) eqn:E; [|assumption].
    apply (consistent_update_view _ _ _ _ Hc
             (fun vw => update_capacity_channel vw _ _ _ _) _ E).
Qed.

Lemma consistent_balance_update tn cid u o un on uc oc rt :
  channels_consistent tn ->
  channels_consistent
    (state (handle_channel_balance_update_message tn cid u o un on uc oc rt)).
Proof.
  intros Hc. unfold handle_channel_balance_update_message.
  destruct (returned (get_channel_views_for_partner tn cid u o)); [|assumption].
  destruct (update_view (G tn) u o _) as [g1|] eqn:E1; [|assumption].
  destruct (update_view g1 o u _) as [g2|] eqn:E2; [|assumption].
  cbn. apply channels_consistent_views; [assumption|].
  intros x y.
  rewrite (update_view_channel _ _ _ _ _ (fun vw => update_capacity_channel vw _ _ _ _) E2).
  apply (update_view_channel _ _ _ _ _ (fun vw => update_capacity_channel vw _ _ _ _) E1).
Qed.

(** Closing a registered channel of a consistent network. *)
Lemma closed_registered tn cid p1 p2 :
  channels_consistent tn ->
  channel_id_to_addresses tn !! cid = Some (p1, p2) ->
  handle_channel_closed_event tn cid
  = ret (set_G (set_channels tn (delete cid (channel_id_to_addresses tn)))
           {| nodes := nodes (G tn);
              edges := delete (p2, p1) (delete (p1, p2) (edges (G tn))) |}) tt.
Proof.
  intros [H1 _] Hc. destruct (H1 _ _ _ Hc) as (Hd & Ha & Hb).
  unfold handle_channel_closed_event. rewrite Hc. cbn [set_channels G].
  rewrite (remove_edge_present _ _ _ _ Ha).
  assert (Hb' : edge_channel {| nodes := nodes (G tn);
                                edges := delete (p1, p2) (edges (G tn)) |} p2 p1 = Some cid).
  { rewrite edge_channel_delete, decide_False; [assumption|].
    intros Heq; inversion Heq; congruence. }
  rewrite (remove_edge_present _ _ _ _ Hb'). reflexivity.
Qed.

Lemma consistent_closed tn cid :
  channels_consistent tn ->
  channels_consistent (state (handle_channel_closed_event tn cid)).
Proof.
  intros Hc.
  destruct (channel_id_to_addresses tn !! cid) as [[p1 p2]|] eqn:E.
  - rewrite (closed_registered _ _ _ _ Hc E). destruct Hc as [H1 H2].
    destruct (H1 _ _ _ E) as (Hd & Ha & Hb).
    split; cbn.
    + intros c q1 q2. rewrite lookup_delete.
      destruct (decide (cid = c)) as [|Hne]; [discriminate|].
      intros Hq. destruct (H1 _ _ _ Hq) as (Hd' & Ha' & Hb').
      split; [assumption|].
      change {| nodes := nodes (G tn);
                edges := delete (p2, p1) (delete (p1, p2) (edges (G tn))) |}
        with {| nodes := nodes {| nodes := nodes (G tn);
                                  edges := delete (p1, p2) (edges (G tn)) |};
                edges := delete (p2, p1)
                           (edges {| nodes := nodes (G tn);
                                     edges := delete (p1, p2) (edges (G tn)) |}) |}.
      rewrite !edge_channel_delete.
      rewrite !decide_False; auto; intros Heq; inversion Heq; subst; congruence.
    + intros u v c.
      change {| nodes := nodes (G tn);
                edges := delete (p2, p1) (delete (p1, p2) (edges (G tn))) |}
        with {| nodes := nodes {| nodes := nodes (G tn);
                                  edges := delete (p1, p2) (edges (G tn)) |};
                edges := delete (p2, p1)
                           (edges {| nodes := nodes (G tn);
                                     edges := delete (p1, p2) (edges (G tn)) |}) |}.
      rewrite !edge_channel_delete, lookup_delete.
      destruct (decide ((p2, p1) = (u, v))) as [|Hn1]; [discriminate|].
      destruct (decide ((p1, p2) = (u, v))) as [|Hn2]; [discriminate|].
      intros Hu. destruct (decide (cid = c)) as [<-|Hne]; [|auto].
      destruct (H2 _ _ _ Hu) as [Hm|Hm]; rewrite E in Hm; inversion Hm; subst; congruence.
  - unfold handle_channel_closed_event. rewrite E. assumption.
Qed.

Lemma consistent_run tn evs :
  channels_consistent tn ->
  opens_new_channels tn evs = true ->
  channels_consistent (run tn evs).
Proof.
  revert tn. induction evs as [|ev evs IH]; intros tn Hc Hnew; cbn; [assumption|].
  cbn in Hnew. apply andb_prop in Hnew as [Hev Hrest].
  apply IH; [|assumption].
  destruct ev; cbn.
  - apply consistent_opened; assumption.
  - apply consistent_deposit; assumption.
  - apply consistent_closed; assumption.
  - apply consistent_balance_update; assumption.
Qed.

End Handler_facts.

Section Handler_claims.
Context {Num : PyNumber} {Lib : Library}.

(** C4 (as amended). In every state reached from a new token network by
    handler calls (open, deposit, close, balance update) in which every open
    event is for two different participants with no edge between them and
    for an identifier that is not in the mapping, every channel identifier
    of the mapping has exactly its two directed edges, participant1 to
    participant2 and back, as the edges whose Channel Views carry that
    identifier; and [handle_channel_closed_event] for it returns normally
    having removed the mapping entry and both edges. *)
Theorem registered_channel_has_both_edges a t evs cid p1 p2 :
  opens_new_channels (TokenNetwork_init a t) evs = true ->
  let tn := run (TokenNetwork_init a t) evs in
  channel_id_to_addresses tn !! cid = Some (p1, p2) ->
  p1 <> p2
  /\ edge_channel (G tn) p1 p2 = Some cid
  /\ edge_channel (G tn) p2 p1 = Some cid
  /\ (forall u v, edge_channel (G tn) u v = Some cid ->
                  (u, v) = (p1, p2) \/ (u, v) = (p2, p1))
  /\ let closed := handle_channel_closed_event tn cid in
     returned closed = Ok tt
     /\ channel_id_to_addresses (state closed) = delete cid (channel_id_to_addresses tn)
     /\ edges (G (state closed)) = delete (p2, p1) (delete (p1, p2) (edges (G tn)))
     /\ nodes (G (state closed)) = nodes (G tn).
Proof.
  intros Hnew tn Hc.
  assert (Hcons : channels_consistent tn)
    by (apply consistent_run; [apply consistent_init | exact Hnew]).
  pose proof Hcons as [H1 H2].
  destruct (H1 _ _ _ Hc) as (Hd & Ha & Hb).
  split; [exact Hd|]. split; [exact Ha|]. split; [exact Hb|]. split.
  - intros u v Hu. destruct (H2 _ _ _ Hu) as [Hm|Hm]; rewrite Hc in Hm;
      inversion Hm; subst; auto.
  - cbv zeta. rewrite (closed_registered _ _ _ _ Hcons Hc). cbn. auto.
Qed.

(** C8 (as amended). When [handle_channel_new_deposit_event] is called with
    a receiver that is a checksum address, and either the channel
    identifier is not in the mapping or the receiver is neither of the two
    participants of the channel, the event is logged and dropped: one error
    record is written, the handler returns normally and the token network
    is unchanged. *)
Theorem deposit_logged_and_dropped tn cid receiver total :
  is_checksum_address receiver = true ->
  channel_id_to_addresses tn !! cid = None
  \/ (exists p1 p2, channel_id_to_addresses tn !! cid = Some (p1, p2)
                    /\ receiver <> p1 /\ receiver <> p2) ->
  let dropped := handle_channel_new_deposit_event tn cid receiver total in
  returned dropped = Ok tt
  /\ state dropped = tn
  /\ logged dropped
     = [if has_channel tn cid then misfit_deposit_msg else unknown_deposit_msg].
Proof.
  intros Hchk Hcase. unfold handle_channel_new_deposit_event, has_channel.
  rewrite Hchk. cbn [negb].
  destruct Hcase as [Hnone|(p1 & p2 & Hsome & Hn1 & Hn2)].
  - rewrite Hnone. cbn. auto.
  - rewrite Hsome.
    rewrite (decide_False (P := receiver = p1)) by assumption.
    rewrite (decide_False (P := receiver = p2)) by assumption.
    cbn. auto.
Qed.

(** The channel identifier passed to [get_channel_views_for_partner] has no
    influence on what it does. *)
Lemma get_channel_views_ignores_identifier tn cid cid' u o :
  get_channel_views_for_partner tn cid u o = get_channel_views_for_partner tn cid' u o.
Proof. reflexivity. Qed.

(** X23. Whatever the relative fees on the edges, every entry that
    [get_paths] returns carries the estimated fee 0. *)
Lemma get_paths_estimated_fee tn source target value max_paths pen hop_bias result r :
  returned (get_paths tn source target value max_paths pen hop_bias) = Ok result ->
  r ∈ result -> estimated_fee r = 0.
Proof.
  intros Hret Hr. apply get_paths_returned in Hret as (s & _ & -> & _).
  apply list_elem_of_fmap in Hr as (p & -> & _). reflexivity.
Qed.

End Handler_claims.

(** * The claims at work on the sample networks *)

(** C1, at a network where the claim fails: on [tolled_channel] the one
    path from alice to bob crosses an edge with relative fee 5, the loop of
    the result assembly adds the fee up to 5, and the entry returned carries
    an estimated fee of 0. *)
Theorem estimated_fee_discards_sum :
  returned (get_paths tolled_channel alice bob 60 1 5 1)
  = Ok [{| path := [alice; bob]; estimated_fee := 0 |}]
  /\ sum_fees (G tolled_channel) (hops [alice; bob]) 0 = Ok 5
  /\ fee_along (G tolled_channel) [alice; bob] = 5.
Proof. vm_compute. auto. Qed.

(** C2, at networks where the claim fails: channel 1 between alice and bob
    is closed and channel 2 is opened between the two; asked for the views of
    channel 1, [get_channel_views_for_partner] returns those of channel 2.
    The same for the identifier 99 that was never opened. And while no
    channel joins the two, what leaves the method is the bare [KeyError] of
    the dictionary lookup. *)
Theorem views_of_closed_channel :
  let reopened := run empty_network
                    [ChannelOpened 1 alice bob 100; ChannelClosed 1;
                     ChannelOpened 2 alice bob 100] in
  let closed := run empty_network [ChannelOpened 1 alice bob 100; ChannelClosed 1] in
  has_channel reopened 1 = false
  /\ has_channel reopened 99 = false
  /\ (exists v1 v2,
         returned (get_channel_views_for_partner reopened 1 alice bob) = Ok (v1, v2)
         /\ returned (get_channel_views_for_partner reopened 99 alice bob) = Ok (v1, v2)
         /\ channel_id v1 = 2 /\ channel_id v2 = 2)
  /\ has_channel closed 1 = false
  /\ returned (get_channel_views_for_partner closed 1 alice bob) = Raise KeyError.
Proof.
  vm_compute. repeat split. eexists _, _. repeat split.
Qed.

(** C3, where the claim as stated fails: the first query on [one_channel]
    writes the weight 1 into the attribute dictionary of the edge from alice
    to bob, which had no ['weight'] before; the graph is not what it was. *)
Lemma get_paths_writes_weight :
  let after := state (get_paths one_channel alice bob 60 1 5 1) in
  weight_attribute (G one_channel) alice bob = Some None
  /\ weight_attribute (G after) alice bob = Some (Some 1)
  /\ G after <> G one_channel.
Proof.
  cbv zeta.
  assert (H0 : weight_attribute (G one_channel) alice bob = Some None)
    by (vm_compute; reflexivity).
  assert (H1 : weight_attribute (G (state (get_paths one_channel alice bob 60 1 5 1)))
                 alice bob = Some (Some 1))
    by (vm_compute; reflexivity).
  split; [exact H0|]. split; [exact H1|].
  intros Heq. rewrite Heq, H0 in H1. clear Heq. discriminate H1.
Qed.

(** C4, where the claim as stated fails: after the two open events of
    [doubly_opened] the identifier 1 is in the mapping for alice and bob,
    and the views on both edges between them carry the identifier 2. *)
Lemma second_open_takes_the_edges :
  channel_id_to_addresses doubly_opened !! 1 = Some (alice, bob)
  /\ edge_channel (G doubly_opened) alice bob = Some 2
  /\ edge_channel (G doubly_opened) bob alice = Some 2
  /\ ~ channels_consistent doubly_opened.
Proof.
  assert (Hm : channel_id_to_addresses doubly_opened !! 1 = Some (alice, bob))
    by (vm_compute; reflexivity).
  assert (Ha : edge_channel (G doubly_opened) alice bob = Some 2)
    by (vm_compute; reflexivity).
  assert (Hb : edge_channel (G doubly_opened) bob alice = Some 2)
    by (vm_compute; reflexivity).
  repeat split; auto.
  intros [H1 _]. destruct (H1 _ _ _ Hm) as (_ & Ha' & _).
  rewrite Ha in Ha'. discriminate Ha'.
Qed.

(** C8, where the claim as stated fails: a deposit event for the unknown
    channel 7 whose receiver is not a checksum address leaves the handler
    with the [AssertionError] of its first line. *)
Lemma deposit_assertion_raises :
  channel_id_to_addresses empty_network !! 7 = None
  /\ returned (handle_channel_new_deposit_event empty_network 7 "bob" 5)
     = Raise AssertionError.
Proof. split; vm_compute; reflexivity. Qed.

(** C10, where the claim as stated fails: dave is not a node of
    [one_channel], and the query for no paths at all to dave returns the
    empty list. *)
Lemma no_pass_no_exception :
  (dave ∉ nodes (G one_channel))
  /\ returned (get_paths one_channel alice dave 60 0 5 1) = Ok [].
Proof.
  split; [|vm_compute; reflexivity].
  apply (bool_decide_eq_false_1 (dave ∈ nodes (G one_channel))). vm_compute. reflexivity.
Qed.

(** C5, where the claim as stated fails: on [rounded_channel] the exact
    ratio of settle timeout to reveal timeout from alice to bob is below the
    minimum 2, the quotient that the code computes is the double 2.0, and
    the path over the edge is returned. *)
Lemma rounded_quotient_passes :
  returned (get_paths rounded_channel alice bob 60 1 5 1) = Ok [entry [alice; bob]]
  /\ exists vw,
       edge_view (G rounded_channel) alice bob = Ok vw
       /\ ~ (DEFAULT_SETTLE_TO_REVEAL_TIMEOUT_RATIO
             <= inject_Z (settle_timeout vw) / inject_Z (reveal_timeout vw))%Q
       /\ exists ratio,
            true_div (settle_timeout vw) (reveal_timeout vw) = Ok ratio
            /\ (ratio == 2)%Q.
Proof.
  split; [vm_compute; reflexivity|].
  eexists. split; [vm_compute; reflexivity|]. split.
  - intros H. vm_compute in H. apply H. reflexivity.
  - eexists. split; [vm_compute; reflexivity|]. reflexivity.
Qed.

(** ** Instances of the theorems that have premises *)

Lemma get_paths_hops_feasible_triangle :
  exists vw,
    edge_view (G triangle) bob carol = Ok vw
    /\ edge_view (G (state (get_paths triangle alice carol 60 2 5 1))) bob carol = Ok vw
    /\ 60 <= capacity vw
    /\ reveal_timeout vw <> 0
    /\ exists ratio,
         true_div (settle_timeout vw) (reveal_timeout vw) = Ok ratio
         /\ (DEFAULT_SETTLE_TO_REVEAL_TIMEOUT_RATIO <= ratio)%Q.
Proof.
  apply (get_paths_hops_feasible triangle alice carol 60 2 5 1
           [entry [alice; carol]; entry [alice; bob; carol]]
           (entry [alice; bob; carol]) bob carol).
  - vm_compute. reflexivity.
  - apply list_elem_of_further, list_elem_of_here.
  - apply list_elem_of_further, list_elem_of_here.
Defined.

Lemma get_paths_no_duplicates_triangle :
  NoDup (path <$> [entry [alice; carol]; entry [alice; bob; carol]]).
Proof.
  apply (get_paths_no_duplicates triangle alice carol 60 5 5 1).
  vm_compute. reflexivity.
Defined.

Lemma get_paths_exhausted_one_channel :
  returned (get_paths one_channel bob alice 60 3 5 1) = Ok [].
Proof.
  apply (proj2 (proj2 (get_paths_bounded_and_exhaustion one_channel bob alice 60 3 5 1))).
  - reflexivity.
  - vm_compute. discriminate.
  - vm_compute. reflexivity.
Defined.

Lemma get_paths_unknown_node_raises_dave :
  1 <= Z.min 3 MAX_PATHS_PER_REQUEST
  /\ (dave ∉ nodes (G one_channel))
  /\ returned (get_paths one_channel alice dave 60 3 5 1) = Raise NodeNotFound.
Proof.
  assert (Hmin : 1 <= Z.min 3 MAX_PATHS_PER_REQUEST) by (vm_compute; discriminate).
  assert (Hnode : dave ∉ nodes (G one_channel))
    by (apply (bool_decide_eq_false_1 (dave ∈ nodes (G one_channel)));
        vm_compute; reflexivity).
  split; [exact Hmin|]. split; [exact Hnode|].
  exact (proj1 (get_paths_unknown_node_raises one_channel alice dave 60 3 5 1
                  Hmin (or_intror Hnode))).
Defined.

Lemma get_paths_weights_and_penalties_triangle :
  Qeq_bool 1 1 = true
  /\ 1 <= Z.min 5 MAX_PATHS_PER_REQUEST
  /\ weight_attribute (G (state (get_paths triangle alice carol 60 5 5 1))) alice carol
     = Some (Some 6)
  /\ exists s,
       search_state triangle alice carol 60 5 s
       /\ state (get_paths triangle alice carol 60 5 5 1)
          = set_G triangle (update_edge_weights (graph s) (visited s))
       /\ forall u v d,
            edges (G (state (get_paths triangle alice carol 60 5 5 1))) !! (u, v) = Some d ->
            weight d
            = Some (num_add (num_of_Z 1)
                      (penalized 5
                         (count_occ Z.eq_dec
                            (concat (channels_along (G triangle) <$> paths s))
                            (channel_id (view d)))
                         (num_of_Z 0))).
Proof.
  assert (Hhop : Qeq_bool 1 1 = true) by reflexivity.
  assert (Hmin : 1 <= Z.min 5 MAX_PATHS_PER_REQUEST) by (vm_compute; discriminate).
  split; [exact Hhop|]. split; [exact Hmin|].
  split; [vm_compute; reflexivity|].
  destruct (get_paths_weights_and_penalties triangle alice carol 60 5 5 1 Hhop Hmin)
    as (s & Hs & _ & Hstate & _ & _ & Hw & _).
  exists s. split; [exact Hs|]. split; [exact Hstate|exact Hw].
Defined.

Lemma registered_channel_has_both_edges_triangle :
  alice <> bob
  /\ edge_channel (G triangle) alice bob = Some 1
  /\ edge_channel (G triangle) bob alice = Some 1
  /\ (forall u v, edge_channel (G triangle) u v = Some 1 ->
                  (u, v) = (alice, bob) \/ (u, v) = (bob, alice))
  /\ let closed := handle_channel_closed_event triangle 1 in
     returned closed = Ok tt
     /\ channel_id_to_addresses (state closed) = delete 1 (channel_id_to_addresses triangle)
     /\ edges (G (state closed))
        = delete (bob, alice) (delete (alice, bob) (edges (G triangle)))
     /\ nodes (G (state closed)) = nodes (G triangle).
Proof.
  apply (registered_channel_has_both_edges dave dave
           [ChannelOpened 1 alice bob 100; ChannelOpened 2 bob carol 100;
            ChannelOpened 3 alice carol 100;
            ChannelNewDeposit 1 alice 100; ChannelNewDeposit 1 bob 100;
            ChannelNewDeposit 2 bob 100; ChannelNewDeposit 2 carol 100;
            ChannelNewDeposit 3 alice 100; ChannelNewDeposit 3 carol 100]
           1 alice bob).
  - vm_compute. reflexivity.
  - vm_compute. reflexivity.
Defined.

Lemma deposit_logged_and_dropped_carol :
  is_checksum_address carol = true
  /\ channel_id_to_addresses one_channel !! 1 = Some (alice, bob)
  /\ returned (handle_channel_new_deposit_event one_channel 1 carol 5) = Ok tt
  /\ state (handle_channel_new_deposit_event one_channel 1 carol 5) = one_channel
  /\ logged (handle_channel_new_deposit_event one_channel 1 carol 5)
     = [misfit_deposit_msg].
Proof.
  assert (Hchk : is_checksum_address carol = true) by reflexivity.
  assert (Hm : channel_id_to_addresses one_channel !! 1 = Some (alice, bob))
    by (vm_compute; reflexivity).
  split; [exact Hchk|]. split; [exact Hm|].
  apply (deposit_logged_and_dropped one_channel 1 carol 5 Hchk).
  right. exists alice, bob. split; [exact Hm|]. split; discriminate.
Defined.

(** * Further properties of the path search *)

Section Search_further.
Context {Num : PyNumber} {Lib : Library}.

Lemma check_hops_complete g value hs :
  Forall (hop_feasible g value) hs -> check_hops g value hs = Ok true.
Proof.
  induction 1 as [|[a b] hs (vw & Hv & Hc & ratio & Hd & Hq) _ IH]; cbn; [reflexivity|].
  cbn in Hv. rewrite Hv.
  rewrite Z.gtb_ltb. apply Z.ltb_ge in Hc. rewrite Hc, Hd.
  apply Qle_bool_iff in Hq. rewrite Hq. cbn. exact IH.
Qed.

(** X1. [check_path_constraints] returns [True] exactly when every hop of
    the path is an edge of the graph whose view has a capacity of at least
    the value and for which the division [settle_timeout / reveal_timeout]
    yields a double (no division by zero, no overflow) that is at least the
    configured minimum; a path of fewer than two nodes has no hop and
    passes. *)
Theorem check_path_constraints_true_iff g value p :
  check_path_constraints g value p = Ok true
  <-> Forall (hop_feasible g value) (hops p).
Proof.
  unfold check_path_constraints. split.
  - intros H. apply Forall_forall. intros [u v] Huv.
    destruct (check_hops_feasible _ _ _ _ _ H Huv) as (vw & ? & ? & ?).
    exists vw. cbn. auto.
  - apply check_hops_complete.
Qed.

(** X2. A path that passes the constraints for a value passes them for
    every smaller value. *)
Theorem check_path_constraints_smaller_value g value value' p :
  check_path_constraints g value p = Ok true ->
  value' <= value ->
  check_path_constraints g value' p = Ok true.
Proof.
  intros H Hle. unfold check_path_constraints in *.
  apply check_hops_complete. apply Forall_forall. intros [u v] Huv.
  destruct (check_hops_feasible _ _ _ _ _ H Huv) as (vw & ? & ? & ?).
  exists vw. cbn. split; [assumption|]. split; [lia|assumption].
Qed.

(** X3. The exceptions of [check_path_constraints]: a [KeyError] for a hop
    that is not an edge of the graph; for a hop whose view has enough
    capacity, the exception of the division [settle_timeout /
    reveal_timeout], which is a [ZeroDivisionError] when the reveal timeout
    is 0 and an [OverflowError] when the quotient is too large for a float;
    nothing else. *)
Theorem check_path_constraints_raises g value p e :
  check_path_constraints g value p = Raise e ->
  exists u v,
    (u, v) ∈ hops p
    /\ ((e = KeyError /\ edges g !! (u, v) = None)
        \/ exists vw,
             edge_view g u v = Ok vw
             /\ value <= capacity vw
             /\ true_div (settle_timeout vw) (reveal_timeout vw) = Raise e
             /\ ((e = ZeroDivisionError /\ reveal_timeout vw = 0)
                 \/ (e = OverflowError /\ reveal_timeout vw <> 0))).
Proof.
  unfold check_path_constraints. induction (hops p) as [|[a b] hs IH]; cbn; [discriminate|].
  unfold edge_view at 1. destruct (edges g !! (a, b)) as [d|] eqn:Ed.
  - destruct (value >? capacity (view d)) eqn:Ec; [discriminate|].
    destruct (true_div _ _) as [ratio|e'] eqn:Er.
    + destruct (negb _); [discriminate|].
      intros H. destruct (IH H) as (u & v & Hin & Hcase).
      exists u, v. split; [apply list_elem_of_further, Hin | exact Hcase].
    + intros H; inversion H; subst. exists a, b. split; [apply list_elem_of_here|].
      right. exists (view d). unfold edge_view. rewrite Ed.
      rewrite Z.gtb_ltb in Ec. apply Z.ltb_ge in Ec.
      split; [reflexivity|]. split; [exact Ec|]. split; [exact Er|].
      apply (true_div_raise _ _ _ Er).
  - intros H; inversion H; subst. exists a, b. split; [apply list_elem_of_here|].
    left. auto.
Qed.

(** X4. [get_paths] does nothing at all to the token network, not even to
    the weights, when it rejects the hop bias ([AssertionError]) and when
    [min(max_paths, MAX_PATHS_PER_REQUEST)] is not positive (the empty list
    is returned). *)
Theorem get_paths_without_pass tn source target value max_paths pen hop_bias :
  Qeq_bool hop_bias 1 = false \/ Z.min max_paths MAX_PATHS_PER_REQUEST <= 0 ->
  state (get_paths tn source target value max_paths pen hop_bias) = tn
  /\ returned (get_paths tn source target value max_paths pen hop_bias)
     = (if Qeq_bool hop_bias 1 then Ok [] else Raise AssertionError).
Proof.
  intros Hcase. unfold get_paths.
  destruct (Qeq_bool hop_bias 1) eqn:Eh; cbn [negb]; [|split; reflexivity].
  destruct Hcase as [|Hmin]; [discriminate|].
  replace (Z.to_nat (Z.min max_paths MAX_PATHS_PER_REQUEST)) with O by lia.
  unfold get_paths_from. cbn. split; [apply set_G_same | reflexivity].
Qed.

Lemma update_edge_weights_ext g g' vis :
  same_channels g g' -> update_edge_weights g' vis = update_edge_weights g vis.
Proof.
  intros [Hn Hv]. unfold update_edge_weights. rewrite Hn. f_equal.
  pose (h := fun vw : ChannelView =>
               {| view := vw;
                  weight := Some (num_add (num_of_Z 1)
                                    (visited_get vis (channel_id vw))) |}).
  transitivity (h <$> (view <$> edges g')).
  - rewrite <- map_fmap_compose. apply map_fmap_ext. reflexivity.
  - rewrite Hv, <- map_fmap_compose. apply map_fmap_ext. reflexivity.
Qed.

Lemma search_pass_ext source target value pen s s' :
  same_channels (graph s) (graph s') -> visited s' = visited s -> paths s' = paths s ->
  search_pass source target value pen s' = search_pass source target value pen s.
Proof.
  intros Hg Hv Hp. unfold search_pass.
  rewrite Hv, Hp, (update_edge_weights_ext _ _ _ Hg). reflexivity.
Qed.

Lemma search_loop_ext n source target value max_paths pen s s' :
  same_channels (graph s) (graph s') -> visited s' = visited s -> paths s' = paths s ->
  same_channels (search_loop n source target value max_paths pen s).1
                (search_loop n source target value max_paths pen s').1
  /\ (search_loop n source target value max_paths pen s').2
     = (search_loop n source target value max_paths pen s).2.
Proof.
  intros Hg Hv Hp. destruct n as [|n]; cbn.
  - rewrite Hp. auto.
  - rewrite (search_pass_ext _ _ _ _ _ _ Hg Hv Hp), Hp.
    split; [apply same_channels_refl | reflexivity].
Qed.

Lemma assemble_same g g' ps acc :
  same_channels g g' -> assemble g' ps acc = assemble g ps acc.
Proof.
  intros H. revert acc. induction ps as [|p ps IH]; intros acc; cbn; [reflexivity|].
  rewrite (sum_fees_same _ _ _ _ H). destruct (sum_fees g (hops p) 0); auto.
Qed.

(** X5. What [get_paths] returns depends on the graph through its nodes,
    edges and Channel Views only: the weights that an earlier query has left
    on the edges have no influence on a later query. *)
Theorem get_paths_forgets_weights tn source0 target0 value0 max_paths0 pen0 hop_bias0
    source target value max_paths pen hop_bias :
  returned (get_paths
              (state (get_paths tn source0 target0 value0 max_paths0 pen0 hop_bias0))
              source target value max_paths pen hop_bias)
  = returned (get_paths tn source target value max_paths pen hop_bias).
Proof.
  destruct (get_paths_state tn source0 target0 value0 max_paths0 pen0 hop_bias0)
    as (g0 & -> & Hsame).
  unfold get_paths. destruct (negb (Qeq_bool hop_bias 1)); [reflexivity|].
  unfold get_paths_from. cbn [G set_G].
  set (n := Z.to_nat _). set (m := Z.min _ _).
  destruct (search_loop_ext n source target value m pen
              {| graph := G tn; visited := ∅; paths := [] |}
              {| graph := g0; visited := ∅; paths := [] |} Hsame eq_refl eq_refl)
    as [Hg Hr].
  destruct (search_loop n source target value m pen
              {| graph := g0; visited := ∅; paths := [] |}) as [g1 r1].
  destruct (search_loop n source target value m pen
              {| graph := G tn; visited := ∅; paths := [] |}) as [g2 r2].
  cbn in Hg, Hr. subst r1. destruct r2; cbn; [|reflexivity].
  apply assemble_same. exact Hg.
Qed.

Lemma next_path_yielded g value ps gen p :
  next_path g value ps gen = Ok (Some p) -> p ∈ yielded gen.
Proof.
  induction gen as [q rest IH| |e]; cbn; try discriminate.
  destruct (check_path_constraints g value q) as [[|]|e].
  - destruct (decide (q ∈ ps)).
    + intros H. apply list_elem_of_further, IH, H.
    + intros H; inversion H; subst. apply list_elem_of_here.
  - intros H. apply list_elem_of_further, IH, H.
  - discriminate.
Qed.

Lemma shortest_simple_paths_yielded g source target p :
  p ∈ yielded (shortest_simple_paths g source target) ->
  p ∈ yielded (simple_paths_by_weight g source target).
Proof.
  unfold shortest_simple_paths.
  destruct (decide (source ∈ nodes g)); [|intros H; inversion H].
  destruct (decide (target ∈ nodes g)); [auto|intros H; inversion H].
Qed.

(** X6. [get_paths] never makes up a path: every path it returns was
    yielded by the enumeration of the graph library, called for this source
    and target on a graph with the nodes, edges and views of the token
    network; whatever holds of all those holds of the paths returned. *)
Theorem get_paths_returns_enumerated_paths tn source target value max_paths pen hop_bias
    (P : list Address -> Prop) result r :
  (forall g p, same_channels (G tn) g ->
               p ∈ yielded (simple_paths_by_weight g source target) -> P p) ->
  returned (get_paths tn source target value max_paths pen hop_bias) = Ok result ->
  r ∈ result ->
  P (path r).
Proof.
  intros HP Hret Hr.
  apply get_paths_returned in Hret as (s & Hs & -> & _).
  apply list_elem_of_fmap in Hr as (p & -> & Hp). cbn.
  clear max_paths hop_bias. revert p Hp.
  induction Hs as [|s0 q s1 Hs0 IH Hq]; intros p Hp.
  - inversion Hp.
  - pose proof (search_state_collected _ _ _ _ _ _ Hs0) as (Hsame & _ & _).
    apply search_pass_accepted in Hq as (Hnext & _ & _ & Hps).
    rewrite Hps in Hp. apply elem_of_app in Hp as [Hp|Hp]; [auto|].
    apply list_elem_of_singleton in Hp. subst p.
    apply next_path_yielded, shortest_simple_paths_yielded in Hnext.
    eapply HP; [|exact Hnext].
    eapply same_channels_trans; [exact Hsame | apply update_edge_weights_same].
Qed.

Lemma search_loop_extends n source target value max_paths pen s g ps :
  search_loop n source target value max_paths pen s = (g, Ok ps) ->
  paths s `prefix_of` ps.
Proof.
  revert s. induction n as [|n IH]; intros s; cbn.
  - intros H; inversion H; subst. reflexivity.
  - destruct (search_pass source target value pen s) as [p s'|g'|g' e] eqn:E.
    + apply search_pass_accepted in E as (_ & _ & _ & Hps).
      assert (Hpre : paths s `prefix_of` paths s') by (rewrite Hps; apply prefix_app_r; reflexivity).
      destruct (Z.of_nat (length (paths s')) >=? max_paths).
      * intros H; inversion H; subst. exact Hpre.
      * intros H. etransitivity; [exact Hpre | apply (IH _ H)].
    + intros H; inversion H; subst. reflexivity.
    + discriminate.
Qed.

Lemma search_loop_more n n' source target value m m' pen s g ps g' ps' :
  (n <= n')%nat -> m <= m' ->
  search_loop n source target value m pen s = (g, Ok ps) ->
  search_loop n' source target value m' pen s = (g', Ok ps') ->
  ps `prefix_of` ps'.
Proof.
  revert n' s. induction n as [|n IH]; intros n' s Hn Hm.
  - cbn. intros H H'; inversion H; subst.
    apply (search_loop_extends _ _ _ _ _ _ _ _ _ H').
  - destruct n' as [|n']; [lia|]. cbn.
    destruct (search_pass source target value pen s) as [p s'|g1|g1 e] eqn:E.
    + destruct (Z.of_nat (length (paths s')) >=? m) eqn:Em.
      * intros H; inversion H; subst.
        destruct (Z.of_nat (length (paths s')) >=? m').
        -- intros H'; inversion H'; subst. reflexivity.
        -- apply search_loop_extends.
      * replace (Z.of_nat (length (paths s')) >=? m') with false.
        -- apply IH; [lia | assumption].
        -- symmetry. rewrite Z.geb_leb in *. apply Z.leb_gt. apply Z.leb_gt in Em. lia.
    + intros H H'; inversion H; inversion H'; subst. reflexivity.
    + discriminate.
Qed.

(** X7. Asking for more paths only appends: the result of a query is a
    prefix of the result of the same query with a larger [max_paths]. *)
Theorem get_paths_more_paths_append tn source target value max_paths max_paths' pen
    hop_bias result result' :
  max_paths <= max_paths' ->
  returned (get_paths tn source target value max_paths pen hop_bias) = Ok result ->
  returned (get_paths tn source target value max_paths' pen hop_bias) = Ok result' ->
  result `prefix_of` result'.
Proof.
  intros Hle. unfold get_paths.
  destruct (negb (Qeq_bool hop_bias 1)); [discriminate|].
  unfold get_paths_from.
  destruct (search_loop (Z.to_nat (Z.min max_paths MAX_PATHS_PER_REQUEST)) _ _ _ _ _ _)
    as [g [ps|e]] eqn:E; [|discriminate].
  destruct (search_loop (Z.to_nat (Z.min max_paths' MAX_PATHS_PER_REQUEST)) _ _ _ _ _ _)
    as [g' [ps'|e']] eqn:E'; [|discriminate].
  cbn. intros Hr Hr'.
  apply assemble_entries in Hr, Hr'. cbn in Hr, Hr'. subst.
  assert (Hpre : ps `prefix_of` ps').
  { eapply search_loop_more; [| |exact E|exact E']; lia. }
  destruct Hpre as [k ->]. rewrite map_app. apply prefix_app_r. reflexivity.
Qed.

(** X8. The first entry of a result is the first path of the enumeration on
    the graph with all weights 1 that passes the constraints. *)
Theorem get_paths_first_entry tn source target value max_paths pen hop_bias p result :
  next_path (update_edge_weights (G tn) ∅) value []
    (shortest_simple_paths (update_edge_weights (G tn) ∅) source target) = Ok (Some p) ->
  1 <= Z.min max_paths MAX_PATHS_PER_REQUEST ->
  returned (get_paths tn source target value max_paths pen hop_bias) = Ok result ->
  head result = Some (entry p).
Proof.
  intros Hnext Hmin. unfold get_paths.
  destruct (negb (Qeq_bool hop_bias 1)); [discriminate|].
  destruct (Z.to_nat (Z.min max_paths MAX_PATHS_PER_REQUEST)) as [|n] eqn:En; [lia|].
  unfold get_paths_from.
  destruct (search_loop (S n) _ _ _ _ _ _) as [g [ps|e]] eqn:E; [|discriminate].
  cbn. intros Hr. apply assemble_entries in Hr. cbn in Hr. subst result.
  cbn in E. unfold search_pass in E. cbn [graph visited paths] in E.
  rewrite Hnext in E.
  destruct (penalize _ pen (hops p) ∅) as [vis|e]; [|discriminate].
  cbn [paths app length] in E.
  assert (Hpre : [p] `prefix_of` ps).
  { destruct (Z.of_nat 1 >=? _).
    - inversion E; subst. reflexivity.
    - apply search_loop_extends in E. exact E. }
  destruct Hpre as [k ->]. reflexivity.
Qed.

Lemma check_hops_raise g value hs e :
  check_hops g value hs = Raise e ->
  e = KeyError \/ e = ZeroDivisionError \/ e = OverflowError.
Proof.
  induction hs as [|[a b] hs IH]; cbn; [discriminate|].
  unfold edge_view. destruct (edges g !! (a, b)) as [d|].
  - destruct (value >? capacity (view d)); [discriminate|].
    destruct (true_div _ _) as [ratio|e'] eqn:Er.
    + destruct (negb _); [discriminate|exact IH].
    + intros H; inversion H; subst.
      destruct (true_div_raise _ _ _ Er) as [[-> _]|[-> _]]; auto.
  - intros H; inversion H; auto.
Qed.

Lemma next_path_raise g value ps gen e :
  next_path g value ps gen = Raise e ->
  e = KeyError \/ e = ZeroDivisionError \/ e = OverflowError \/ gen_end gen = Some e.
Proof.
  induction gen as [q rest IH| |e']; cbn; try discriminate.
  - destruct (check_path_constraints g value q) as [[|]|e''] eqn:E.
    + destruct (decide (q ∈ ps)); [exact IH|discriminate].
    + exact IH.
    + intros H; inversion H; subst.
      destruct (check_hops_raise _ _ _ _ E) as [?|[?|?]]; auto.
  - intros H; inversion H; auto.
Qed.

Lemma penalize_raise g pen hs vis e :
  penalize g pen hs vis = Raise e -> e = KeyError.
Proof.
  revert vis. induction hs as [|[a b] hs IH]; intros vis; cbn; [discriminate|].
  unfold edge_view. destruct (edges g !! (a, b)); [apply IH|].
  intros H; inversion H; reflexivity.
Qed.

Lemma sum_fees_raise g hs fee e : sum_fees g hs fee = Raise e -> e = KeyError.
Proof.
  revert fee. induction hs as [|[a b] hs IH]; intros fee; cbn; [discriminate|].
  unfold edge_view. destruct (edges g !! (a, b)); [apply IH|].
  intros H; inversion H; reflexivity.
Qed.

Lemma assemble_raise g ps acc e : assemble g ps acc = Raise e -> e = KeyError.
Proof.
  revert acc. induction ps as [|p ps IH]; intros acc; cbn; [discriminate|].
  destruct (sum_fees g (hops p) 0) eqn:E; [apply IH|].
  intros H; inversion H; subst. apply (sum_fees_raise _ _ _ _ E).
Qed.

Lemma search_loop_raise n source target value max_paths pen s g e :
  search_loop n source target value max_paths pen s = (g, Raise e) ->
  e = KeyError \/ e = ZeroDivisionError \/ e = OverflowError \/ e = NodeNotFound
  \/ exists g', gen_end (simple_paths_by_weight g' source target) = Some e.
Proof.
  revert s. induction n as [|n IH]; intros s; cbn; [discriminate|].
  destruct (search_pass source target value pen s) as [p s'|g'|g' e'] eqn:E.
  - destruct (Z.of_nat (length (paths s')) >=? max_paths); [discriminate|apply IH].
  - discriminate.
  - intros H; inversion H; subst. unfold search_pass in E. cbv zeta in E.
    destruct (next_path _ value (paths s) _) as [[q|]|e''] eqn:En.
    + destruct (penalize _ pen (hops q) (visited s)) eqn:Ep; [discriminate|].
      inversion E; subst. left. apply (penalize_raise _ _ _ _ _ Ep).
    + discriminate.
    + inversion E; subst.
      destruct (next_path_raise _ _ _ _ _ En) as [?|[?|[?|Hg]]]; auto.
      unfold shortest_simple_paths in Hg.
      destruct (decide (source ∈ nodes _)); [|inversion Hg; auto 6].
      destruct (decide (target ∈ nodes _)); [|inversion Hg; auto 6].
      right. right. right. right. eauto.
Qed.

(** X24. The exceptions that can leave [get_paths]: the [AssertionError] of
    the hop bias, the [NodeNotFound] of an end point that is not a node, the
    [KeyError], [ZeroDivisionError] and [OverflowError] of the constraint
    check, and whatever the enumeration of the graph library itself ends
    with; nothing else. *)
Theorem get_paths_exceptions tn source target value max_paths pen hop_bias e :
  returned (get_paths tn source target value max_paths pen hop_bias) = Raise e ->
  e = AssertionError \/ e = KeyError \/ e = ZeroDivisionError \/ e = OverflowError
  \/ e = NodeNotFound
  \/ exists g, gen_end (simple_paths_by_weight g source target) = Some e.
Proof.
  unfold get_paths. destruct (negb (Qeq_bool hop_bias 1)).
  - cbn. intros H; inversion H; auto.
  - unfold get_paths_from.
    destruct (search_loop _ _ _ _ _ _ _) as [g [ps|e']] eqn:E; cbn.
    + intros H. apply assemble_raise in H. auto.
    + intros H; inversion H; subst.
      destruct (search_loop_raise _ _ _ _ _ _ _ _ _ E) as [?|[?|[?|[?|?]]]]; auto 7.
Qed.

End Search_further.

(** * Further properties of the handlers *)

(** Equations and inclusions between unions of singletons and sets. *)
Ltac set_cases :=
  try apply set_eq; try split; intros;
  rewrite ?elem_of_subseteq, ?elem_of_union, ?elem_of_singleton in *;
  intros; rewrite ?elem_of_union, ?elem_of_singleton in *;
  intuition (subst; auto).

Section Handler_further.
Context {Num : PyNumber} {Lib : Library}.

(** X9. [handle_channel_opened_event] with a participant that is not a
    checksum address raises [AssertionError] and changes nothing. With two
    checksum addresses it returns normally: the identifier is mapped to the
    two participants, both are nodes, the edges in both directions carry
    one and the same new view (participant1 is the first participant on the
    edge back as well), and no other edge is touched. *)
Theorem opened_event_registers tn cid p1 p2 settle :
  let opened := handle_channel_opened_event tn cid p1 p2 settle in
  (is_checksum_address p1 && is_checksum_address p2 = false ->
   opened = raise tn AssertionError)
  /\ (is_checksum_address p1 && is_checksum_address p2 = true ->
      returned opened = Ok tt
      /\ logged opened = []
      /\ channel_id_to_addresses (state opened)
         = <[cid := (p1, p2)]> (channel_id_to_addresses tn)
      /\ nodes (G (state opened)) = {[p1; p2]} ∪ nodes (G tn)
      /\ edge_view (G (state opened)) p1 p2 = Ok (ChannelView_new cid p1 p2 settle 0)
      /\ edge_view (G (state opened)) p2 p1 = Ok (ChannelView_new cid p1 p2 settle 0)
      /\ forall u v, (u, v) <> (p1, p2) -> (u, v) <> (p2, p1) ->
                     edges (G (state opened)) !! (u, v) = edges (G tn) !! (u, v)).
Proof.
  cbv zeta. unfold handle_channel_opened_event. split.
  - intros H. apply andb_false_iff in H as [-> | ->]; cbn; [reflexivity|].
    destruct (negb (is_checksum_address p1)); reflexivity.
  - intros H. apply andb_true_iff in H as [-> ->]. cbn.
    repeat split.
    + set_cases.
    + unfold edge_view. cbn. rewrite lookup_insert.
      destruct (decide ((p2, p1) = (p1, p2))); [reflexivity|].
      now rewrite lookup_insert_eq.
    + unfold edge_view. cbn. now rewrite lookup_insert_eq.
    + intros u v H1 H2. rewrite !lookup_insert_ne; auto.
Qed.

(** X10. Handling the same [ChannelOpened] event a second time changes
    nothing: the outcome of the second call is the outcome of the first. *)
Theorem opened_event_twice tn cid p1 p2 settle :
  handle_channel_opened_event
    (state (handle_channel_opened_event tn cid p1 p2 settle)) cid p1 p2 settle
  = handle_channel_opened_event tn cid p1 p2 settle.
Proof.
  unfold handle_channel_opened_event.
  destruct (is_checksum_address p1) eqn:E1; cbn [negb state raise]; [|reflexivity].
  destruct (is_checksum_address p2) eqn:E2; cbn [negb state raise]; [|reflexivity].
  cbn [state ret].
  unfold ret. f_equal. unfold set_G, set_channels. cbn.
  f_equal.
  - apply insert_insert_eq.
  - unfold add_edge. cbn. f_equal.
    + set_cases.
    + apply map_eq. intros k.
      destruct (decide (p1 = p2)) as [->|Hne].
      * rewrite !lookup_insert_eq. cbn.
        rewrite !lookup_insert. destruct (decide ((p2, p2) = k)); reflexivity.
      * assert (Hk : (p1, p2) <> (p2, p1)) by (intros H; inversion H; congruence).
        assert (Hk' : (p2, p1) <> (p1, p2)) by (intros H; inversion H; congruence).
        rewrite !lookup_insert.
        destruct (decide ((p2, p1) = k)) as [<-|Hk2].
        -- rewrite (decide_False (P := (p1, p2) = (p2, p1))) by assumption.
           rewrite (decide_True (P := (p2, p1) = (p2, p1))) by reflexivity.
           reflexivity.
        -- destruct (decide ((p1, p2) = k)) as [<-|Hk1]; [|reflexivity].
           rewrite (decide_False (P := (p2, p1) = (p1, p2))) by assumption.
           rewrite (decide_True (P := (p1, p2) = (p1, p2))) by reflexivity.
           reflexivity.
Qed.

Lemma update_view_some g u v f d :
  edges g !! (u, v) = Some d ->
  update_view g u v f
  = Some {| nodes := nodes g;
            edges := <[(u, v) := {| view := f (view d); weight := weight d |}]> (edges g) |}.
Proof. intros H. unfold update_view. now rewrite H. Qed.

Lemma update_view_edges g u v f g' :
  update_view g u v f = Some g' ->
  nodes g' = nodes g
  /\ dom (edges g') = dom (edges g)
  /\ (forall a b, weight_attribute g' a b = weight_attribute g a b)
  /\ (forall a b, (a, b) <> (u, v) -> edges g' !! (a, b) = edges g !! (a, b))
  /\ exists d, edges g !! (u, v) = Some d /\ edge_view g' u v = Ok (f (view d)).
Proof.
  unfold update_view. destruct (edges g !! (u, v)) as [d|] eqn:E; [|discriminate].
  intros H; inversion H; subst; clear H. cbn. repeat split.
  - rewrite dom_insert_L. apply elem_of_dom_2 in E. set_cases.
  - intros a b. unfold weight_attribute. cbn. rewrite lookup_insert.
    destruct (decide ((u, v) = (a, b))) as [Heq|]; [|reflexivity].
    rewrite <- Heq, E. reflexivity.
  - intros a b Hne. now rewrite lookup_insert_ne.
  - exists d. split; [reflexivity|]. unfold edge_view. cbn. now rewrite lookup_insert_eq.
Qed.

(** X11. With a checksum receiver, [handle_channel_new_deposit_event] never
    raises, whatever the state of the token network; and it leaves the
    mapping, the nodes, the set of edges, the channel identifier on every
    edge and every weight as they were. *)
Theorem deposit_event_never_raises tn cid receiver total :
  is_checksum_address receiver = true ->
  let deposited := handle_channel_new_deposit_event tn cid receiver total in
  returned deposited = Ok tt
  /\ channel_id_to_addresses (state deposited) = channel_id_to_addresses tn
  /\ nodes (G (state deposited)) = nodes (G tn)
  /\ dom (edges (G (state deposited))) = dom (edges (G tn))
  /\ (forall u v, edge_channel (G (state deposited)) u v = edge_channel (G tn) u v)
  /\ (forall u v, weight_attribute (G (state deposited)) u v = weight_attribute (G tn) u v).
Proof.
  intros Hchk. cbv zeta. unfold handle_channel_new_deposit_event. rewrite Hchk. cbn [negb].
  assert (Hsame : forall (o : Outcome unit), state o = tn -> returned o = Ok tt ->
            returned o = Ok tt
            /\ channel_id_to_addresses (state o) = channel_id_to_addresses tn
            /\ nodes (G (state o)) = nodes (G tn)
            /\ dom (edges (G (state o))) = dom (edges (G tn))
            /\ (forall u v, edge_channel (G (state o)) u v = edge_channel (G tn) u v)
            /\ (forall u v, weight_attribute (G (state o)) u v
                            = weight_attribute (G tn) u v))
    by (intros o -> ->; repeat split).
  assert (Hupd : forall u v f g, update_view (G tn) u v f = Some g ->
            (forall vw, channel_id (f vw) = channel_id vw) ->
            returned (ret (set_G tn g) tt) = Ok tt
            /\ channel_id_to_addresses (state (ret (set_G tn g) tt))
               = channel_id_to_addresses tn
            /\ nodes (G (state (ret (set_G tn g) tt))) = nodes (G tn)
            /\ dom (edges (G (state (ret (set_G tn g) tt)))) = dom (edges (G tn))
            /\ (forall a b, edge_channel (G (state (ret (set_G tn g) tt))) a b
                            = edge_channel (G tn) a b)
            /\ (forall a b, weight_attribute (G (state (ret (set_G tn g) tt))) a b
                            = weight_attribute (G tn) a b)).
  { intros u v f g Hg Hf. cbn.
    destruct (update_view_edges _ _ _ _ _ Hg) as (Hn & Hd & Hw & _ & _).
    repeat split; auto. apply (update_view_channel _ _ _ _ _ Hf Hg). }
  destruct (channel_id_to_addresses tn !! cid) as [[p1 p2]|]; [|apply Hsame; reflexivity].
  destruct (decide (receiver = p1)).
  - destruct (update_view (G tn) p1 p2 _) as [g|] eqn:E; [|apply Hsame; reflexivity].
    apply (Hupd _ _ _ _ E). intros; apply update_capacity_channel.
  - destruct (decide (receiver = p2)); [|apply Hsame; reflexivity].
    destruct (update_view (G tn) p2 p1 _) as [g|] eqn:E; [|apply Hsame; reflexivity].
    apply (Hupd _ _ _ _ E). intros; apply update_capacity_channel.
Qed.

(** X12. A deposit by a participant of a registered channel goes to the view
    on the edge from the receiver to its partner, by [update_capacity] with
    the new total deposit alone; every other edge, the edge back among them,
    stays as it is, and nothing is logged. *)
Theorem deposit_event_updates_one_view tn cid receiver partner total d :
  is_checksum_address receiver = true ->
  channel_id_to_addresses tn !! cid = Some (receiver, partner)
  \/ (channel_id_to_addresses tn !! cid = Some (partner, receiver)
      /\ receiver <> partner) ->
  edges (G tn) !! (receiver, partner) = Some d ->
  let deposited := handle_channel_new_deposit_event tn cid receiver total in
  returned deposited = Ok tt
  /\ logged deposited = []
  /\ edge_view (G (state deposited)) receiver partner
     = Ok (update_capacity (view d) None None (Some total) None)
  /\ forall u v, (u, v) <> (receiver, partner) ->
                 edges (G (state deposited)) !! (u, v) = edges (G tn) !! (u, v).
Proof.
  intros Hchk Hmap Hd. cbv zeta. unfold handle_channel_new_deposit_event.
  rewrite Hchk. cbn [negb].
  assert (Hgoal : forall g,
            update_view (G tn) receiver partner
              (fun v => update_capacity v None None (Some total) None) = Some g ->
            edge_view g receiver partner
            = Ok (update_capacity (view d) None None (Some total) None)
            /\ forall u v, (u, v) <> (receiver, partner) ->
                           edges g !! (u, v) = edges (G tn) !! (u, v)).
  { intros g Hg. destruct (update_view_edges _ _ _ _ _ Hg) as (_ & _ & _ & Hfr & d' & Hd' & Hv).
    rewrite Hd in Hd'. inversion Hd'; subst. auto. }
  assert (Hsome : exists g, update_view (G tn) receiver partner
                              (fun v => update_capacity v None None (Some total) None)
                            = Some g)
    by (unfold update_view; rewrite Hd; eauto).
  destruct Hsome as [g Hg]. destruct (Hgoal g Hg) as [Hv Hfr].
  destruct Hmap as [Hm|[Hm Hne]]; rewrite Hm.
  - rewrite decide_True by reflexivity. rewrite Hg. cbn. auto.
  - rewrite decide_False by assumption. rewrite decide_True by reflexivity.
    rewrite Hg. cbn. auto.
Qed.

(** X13. [handle_channel_closed_event], whatever the state: afterwards the
    identifier is not in the mapping and no other entry has changed; the
    nodes are all still there; edges are removed at most, none is added or
    altered; and the call returns normally or raises [NetworkXError],
    nothing else. For an identifier that is not in the mapping the token
    network is unchanged and one error is logged. *)
Theorem closed_event_outcome tn cid :
  let closed := handle_channel_closed_event tn cid in
  channel_id_to_addresses (state closed) = delete cid (channel_id_to_addresses tn)
  /\ nodes (G (state closed)) = nodes (G tn)
  /\ (forall u v d, edges (G (state closed)) !! (u, v) = Some d ->
                    edges (G tn) !! (u, v) = Some d)
  /\ (returned closed = Ok tt \/ returned closed = Raise NetworkXError)
  /\ (channel_id_to_addresses tn !! cid = None ->
      state closed = tn /\ logged closed = [unknown_closed_msg]
      /\ returned closed = Ok tt).
Proof.
  cbv zeta. unfold handle_channel_closed_event.
  destruct (channel_id_to_addresses tn !! cid) as [[p1 p2]|] eqn:E.
  - cbn [set_channels G]. unfold remove_edge.
    destruct (edges (G tn) !! (p1, p2)) as [d1|] eqn:E1.
    + cbn [edges nodes].
      destruct (delete (p1, p2) (edges (G tn)) !! (p2, p1)) as [d2|] eqn:E2; cbn.
      * split; [reflexivity|]. split; [reflexivity|]. split; [|split; [auto|discriminate]].
        intros u v d H. apply lookup_delete_Some in H as [_ H].
        apply lookup_delete_Some in H as [_ H]. exact H.
      * split; [reflexivity|]. split; [reflexivity|]. split; [|split; [auto|discriminate]].
        intros u v d H. apply lookup_delete_Some in H as [_ H]. exact H.
    + cbn. split; [reflexivity|]. split; [reflexivity|]. split; [auto|].
      split; [auto|discriminate].
  - cbn. repeat split; auto.
    symmetry. apply delete_id. exact E.
Qed.

(** X14. Closing a channel that was registered with one and the same
    address for both participants always raises [NetworkXError]: the single
    edge cannot be removed twice. The mapping entry and the edge are gone
    all the same. *)
Theorem closed_event_self_channel tn cid p :
  channel_id_to_addresses tn !! cid = Some (p, p) ->
  let closed := handle_channel_closed_event tn cid in
  returned closed = Raise NetworkXError
  /\ channel_id_to_addresses (state closed) !! cid = None
  /\ edges (G (state closed)) !! (p, p) = None.
Proof.
  intros Hm. cbv zeta. unfold handle_channel_closed_event. rewrite Hm.
  cbn [set_channels G]. unfold remove_edge.
  destruct (edges (G tn) !! (p, p)) as [d|] eqn:E.
  - cbn [edges nodes]. rewrite lookup_delete_eq. cbn.
    rewrite !lookup_delete_eq. auto.
  - cbn. rewrite lookup_delete_eq. auto.
Qed.

(** X15. Opening a new channel (two different checksum addresses without an
    edge between them, an identifier that is not in the mapping) and closing
    it again gives back the mapping and the edges as they were; the two
    participants remain as nodes. *)
Theorem opened_then_closed tn cid p1 p2 settle :
  is_checksum_address p1 = true ->
  is_checksum_address p2 = true ->
  opens_new_channel tn (ChannelOpened cid p1 p2 settle) = true ->
  let closed :=
    handle_channel_closed_event
      (state (handle_channel_opened_event tn cid p1 p2 settle)) cid in
  returned closed = Ok tt
  /\ logged closed = []
  /\ channel_id_to_addresses (state closed) = channel_id_to_addresses tn
  /\ edges (G (state closed)) = edges (G tn)
  /\ nodes (G (state closed)) = {[p1; p2]} ∪ nodes (G tn).
Proof.
  intros Hc1 Hc2 Hnew. cbv zeta.
  cbn in Hnew.
  apply andb_prop in Hnew as [Hnew He2]. apply andb_prop in Hnew as [Hnew He1].
  apply andb_prop in Hnew as [Hc Hp].
  apply negb_true_iff in Hc, Hp, He1, He2.
  apply has_channel_false in Hc. apply bool_decide_eq_false in Hp.
  unfold has_edge in He1, He2.
  destruct (edges (G tn) !! (p1, p2)) eqn:E1; [discriminate|].
  destruct (edges (G tn) !! (p2, p1)) eqn:E2; [discriminate|].
  assert (Hk : (p1, p2) <> (p2, p1)) by (intros H; inversion H; congruence).
  unfold handle_channel_opened_event. rewrite Hc1, Hc2. cbn [negb].
  unfold handle_channel_closed_event. cbn [state ret set_G set_channels channel_id_to_addresses G].
  rewrite lookup_insert_eq. unfold remove_edge, add_edge. cbn [edges nodes].
  rewrite lookup_insert_ne by (intros H; inversion H; congruence).
  rewrite lookup_insert_eq. cbn [edges nodes].
  rewrite lookup_delete_ne by assumption. rewrite lookup_insert_eq. cbn.
  repeat split.
  - apply delete_insert_id. exact Hc.
  - rewrite (delete_insert_ne _ (p1, p2) (p2, p1)) by assumption.
    rewrite !delete_insert_eq.
    rewrite (delete_id _ (p1, p2)) by assumption.
    apply delete_id. exact E2.
  - set_cases.
Qed.

(** X16. [handle_channel_balance_update_message] for two participants
    without an edge in one of the two directions raises [KeyError] and has
    changed nothing when it does: no view is updated alone. *)
Theorem balance_update_missing_edge tn cid u o un on uc oc rt :
  has_edge (G tn) u o && has_edge (G tn) o u = false ->
  handle_channel_balance_update_message tn cid u o un on uc oc rt = raise tn KeyError.
Proof.
  intros H. unfold handle_channel_balance_update_message, get_channel_views_for_partner,
    edge_view, has_edge in *.
  destruct (edges (G tn) !! (u, o)); cbn; [|reflexivity].
  destruct (edges (G tn) !! (o, u)); cbn; [discriminate|reflexivity].
Qed.

(** X17. A balance update between two participants joined by both edges
    returns normally; the view from the updating participant to the other
    takes nonce, capacity and reveal timeout of the message, the view back
    takes the other nonce and capacity (for a participant paired with
    itself the one view takes both updates in turn); every other edge, the
    mapping, the nodes and the weights stay as they are. *)
Theorem balance_update_effect tn cid u o un on uc oc rt d1 d2 :
  edges (G tn) !! (u, o) = Some d1 ->
  edges (G tn) !! (o, u) = Some d2 ->
  let updated := handle_channel_balance_update_message tn cid u o un on uc oc rt in
  let to_partner := update_capacity (view d1) (Some un) (Some uc) None (Some rt) in
  returned updated = Ok tt
  /\ logged updated = []
  /\ channel_id_to_addresses (state updated) = channel_id_to_addresses tn
  /\ nodes (G (state updated)) = nodes (G tn)
  /\ edge_view (G (state updated)) o u
     = Ok (update_capacity (if decide (u = o) then to_partner else view d2)
             (Some on) (Some oc) None None)
  /\ (u <> o -> edge_view (G (state updated)) u o = Ok to_partner)
  /\ (forall a b, (a, b) <> (u, o) -> (a, b) <> (o, u) ->
                  edges (G (state updated)) !! (a, b) = edges (G tn) !! (a, b))
  /\ (forall a b, weight_attribute (G (state updated)) a b
                  = weight_attribute (G tn) a b).
Proof.
  intros H1 H2. cbv zeta.
  unfold handle_channel_balance_update_message, get_channel_views_for_partner, edge_view.
  rewrite H1, H2. cbn [returned ret].
  rewrite (update_view_some _ _ _ _ _ H1).
  destruct (decide (u = o)) as [->|Huo].
  - erewrite update_view_some by (cbn [edges]; apply lookup_insert_eq).
    cbn. rewrite lookup_insert_eq. repeat split; auto.
    + congruence.
    + intros a b Ha _. rewrite !lookup_insert_ne; auto.
    + intros a b. unfold weight_attribute. cbn. rewrite !lookup_insert.
      destruct (decide ((o, o) = (a, b))) as [<-|]; [|reflexivity].
      rewrite H1. reflexivity.
  - assert (Hne : (u, o) <> (o, u)) by (intros H; inversion H; congruence).
    erewrite update_view_some
      by (cbn [edges]; rewrite lookup_insert_ne by exact Hne; exact H2).
    cbn. rewrite lookup_insert_eq. repeat split; auto.
    + intros _. rewrite lookup_insert_ne by (intros H; apply Hne; congruence).
      now rewrite lookup_insert_eq.
    + intros a b Ha Hb. rewrite !lookup_insert_ne; auto.
    + intros a b. unfold weight_attribute. cbn. rewrite !lookup_insert.
      destruct (decide ((o, u) = (a, b))) as [<-|]; [rewrite H2; reflexivity|].
      destruct (decide ((u, o) = (a, b))) as [<-|]; [rewrite H1; reflexivity|].
      reflexivity.
Qed.

End Handler_further.

(** * Properties of runs of the handlers *)

Section Run_further.
Context {Num : PyNumber} {Lib : Library}.

Lemma update_capacity_keeps_identity n c d r :
  keeps_identity (fun vw => update_capacity vw n c d r).
Proof. intros vw. repeat split. Qed.

(** ** What a handler can have done to the token network *)

Lemma opened_shape tn cid p1 p2 settle :
  state (handle_channel_opened_event tn cid p1 p2 settle) = tn
  \/ (is_checksum_address p1 = true /\ is_checksum_address p2 = true
      /\ state (handle_channel_opened_event tn cid p1 p2 settle)
         = set_G (set_channels tn (<[cid := (p1, p2)]> (channel_id_to_addresses tn)))
             (add_edge (add_edge (G tn) p1 p2 (ChannelView_new cid p1 p2 settle 0))
                p2 p1 (ChannelView_new cid p1 p2 settle 0))).
Proof.
  unfold handle_channel_opened_event.
  destruct (is_checksum_address p1); cbn [negb]; [|left; reflexivity].
  destruct (is_checksum_address p2); cbn [negb]; [|left; reflexivity].
  right. auto.
Qed.

Lemma deposit_shape tn cid receiver total :
  state (handle_channel_new_deposit_event tn cid receiver total) = tn
  \/ exists u v f g,
       keeps_identity f /\ update_view (G tn) u v f = Some g
       /\ state (handle_channel_new_deposit_event tn cid receiver total) = set_G tn g.
Proof.
  unfold handle_channel_new_deposit_event.
  destruct (negb (is_checksum_address receiver)); [left; reflexivity|].
  destruct (channel_id_to_addresses tn !! cid) as [[p1 p2]|]; [|left; reflexivity].
  destruct (decide (receiver = p1)).
  - destruct (update_view (G tn) p1 p2 _) as [g|] eqn:E; [|left; reflexivity].
    right. eexists _, _, _, g. split; [|split; [exact E|reflexivity]].
    apply update_capacity_keeps_identity.
  - destruct (decide (receiver = p2)); [|left; reflexivity].
    destruct (update_view (G tn) p2 p1 _) as [g|] eqn:E; [|left; reflexivity].
    right. eexists _, _, _, g. split; [|split; [exact E|reflexivity]].
    apply update_capacity_keeps_identity.
Qed.

Lemma balance_update_shape tn cid u o un on uc oc rt :
  state (handle_channel_balance_update_message tn cid u o un on uc oc rt) = tn
  \/ exists f1 g1 f2 g2,
       keeps_identity f1 /\ keeps_identity f2
       /\ update_view (G tn) u o f1 = Some g1
       /\ update_view g1 o u f2 = Some g2
       /\ state (handle_channel_balance_update_message tn cid u o un on uc oc rt)
          = set_G tn g2.
Proof.
  unfold handle_channel_balance_update_message.
  destruct (returned (get_channel_views_for_partner tn cid u o)); [|left; reflexivity].
  destruct (update_view (G tn) u o _) as [g1|] eqn:E1; [|left; reflexivity].
  destruct (update_view g1 o u _) as [g2|] eqn:E2; [|left; reflexivity].
  right. eexists _, g1, _, g2.
  split; [apply update_capacity_keeps_identity|].
  split; [apply update_capacity_keeps_identity|].
  split; [exact E1|]. split; [exact E2|reflexivity].
Qed.

Lemma closed_shape tn cid :
  channel_id_to_addresses (state (handle_channel_closed_event tn cid))
  = delete cid (channel_id_to_addresses tn)
  /\ nodes (G (state (handle_channel_closed_event tn cid))) = nodes (G tn)
  /\ forall u v d, edges (G (state (handle_channel_closed_event tn cid))) !! (u, v) = Some d ->
                   edges (G tn) !! (u, v) = Some d.
Proof.
  unfold handle_channel_closed_event.
  destruct (channel_id_to_addresses tn !! cid) as [[p1 p2]|] eqn:E.
  - cbn [set_channels G]. unfold remove_edge.
    destruct (edges (G tn) !! (p1, p2)) as [d1|] eqn:E1.
    + cbn [edges nodes].
      destruct (delete (p1, p2) (edges (G tn)) !! (p2, p1)) as [d2|] eqn:E2; cbn.
      * split; [reflexivity|]. split; [reflexivity|].
        intros u v d H. apply lookup_delete_Some in H as [_ H].
        apply lookup_delete_Some in H as [_ H]. exact H.
      * split; [reflexivity|]. split; [reflexivity|].
        intros u v d H. apply lookup_delete_Some in H as [_ H]. exact H.
    + cbn. auto.
  - cbn. split; [|auto]. symmetry. apply delete_id. exact E.
Qed.

Lemma update_view_lookup g u v f g' a b :
  update_view g u v f = Some g' ->
  edges g' !! (a, b)
  = (fun d => if decide ((u, v) = (a, b))
              then {| view := f (view d); weight := weight d |} else d)
    <$> edges g !! (a, b).
Proof.
  unfold update_view. destruct (edges g !! (u, v)) as [d|] eqn:E; [|discriminate].
  intros H; inversion H; subst; clear H. cbn. rewrite lookup_insert.
  destruct (decide ((u, v) = (a, b))) as [<-|Hne].
  - rewrite E. reflexivity.
  - destruct (edges g !! (a, b)); reflexivity.
Qed.

Lemma update_view_nodes g u v f g' : update_view g u v f = Some g' -> nodes g' = nodes g.
Proof.
  unfold update_view. destruct (edges g !! (u, v)); [|discriminate].
  intros H; inversion H; reflexivity.
Qed.

(** ** Nodes and end points *)

Lemma handle_nodes tn ev : nodes (G tn) ⊆ nodes (G (state (handle tn ev))).
Proof.
  destruct ev as [cid p1 p2 settle|cid receiver total|cid|cid u o un on uc oc rt]; cbn [handle].
  - destruct (opened_shape tn cid p1 p2 settle) as [->|(_ & _ & ->)]; [reflexivity|].
    cbn. set_cases.
  - destruct (deposit_shape tn cid receiver total) as [->|(u & v & f & g & _ & Hg & ->)];
      [reflexivity|].
    cbn. now rewrite (update_view_nodes _ _ _ _ _ Hg).
  - destruct (closed_shape tn cid) as (_ & -> & _). reflexivity.
  - destruct (balance_update_shape tn cid u o un on uc oc rt)
      as [->|(f1 & g1 & f2 & g2 & _ & _ & H1 & H2 & ->)]; [reflexivity|].
    cbn. now rewrite (update_view_nodes _ _ _ _ _ H2), (update_view_nodes _ _ _ _ _ H1).
Qed.

Lemma update_view_between_nodes g u v f g' :
  update_view g u v f = Some g' -> edges_between_nodes g -> edges_between_nodes g'.
Proof.
  intros Hg Hb a b Hab.
  rewrite (update_view_lookup _ _ _ _ _ a b Hg) in Hab.
  rewrite (update_view_nodes _ _ _ _ _ Hg).
  apply Hb. destruct (edges g !! (a, b)); [eauto|].
  destruct Hab as [? Hab]. discriminate.
Qed.

Lemma handle_between_nodes tn ev :
  edges_between_nodes (G tn) -> edges_between_nodes (G (state (handle tn ev))).
Proof.
  intros Hb.
  destruct ev as [cid p1 p2 settle|cid receiver total|cid|cid u o un on uc oc rt]; cbn [handle].
  - destruct (opened_shape tn cid p1 p2 settle) as [->|(_ & _ & ->)]; [exact Hb|].
    intros a b. cbn. rewrite !lookup_insert.
    destruct (decide ((p2, p1) = (a, b))) as [Heq|_].
    { inversion Heq; subst. intros _. set_cases. }
    destruct (decide ((p1, p2) = (a, b))) as [Heq|_].
    { inversion Heq; subst. intros _. set_cases. }
    intros Hab. destruct (Hb _ _ Hab). set_cases.
  - destruct (deposit_shape tn cid receiver total) as [->|(u & v & f & g & _ & Hg & ->)];
      [exact Hb|].
    cbn. apply (update_view_between_nodes _ _ _ _ _ Hg Hb).
  - destruct (closed_shape tn cid) as (_ & Hn & He).
    intros a b [d Hd]. rewrite Hn. apply Hb. rewrite (He _ _ _ Hd). eauto.
  - destruct (balance_update_shape tn cid u o un on uc oc rt)
      as [->|(f1 & g1 & f2 & g2 & _ & _ & H1 & H2 & ->)]; [exact Hb|].
    cbn. apply (update_view_between_nodes _ _ _ _ _ H2).
    apply (update_view_between_nodes _ _ _ _ _ H1 Hb).
Qed.

Lemma run_app tn evs evs' : run tn (evs ++ evs') = run (run tn evs) evs'.
Proof. revert tn. induction evs as [|ev evs IH]; intros tn; cbn; auto. Qed.

(** X18. Whatever calls the handlers receive, both end points of every
    edge of the graph are nodes, and no call ever removes a node: the
    participants of a closed channel stay in the graph. *)
Theorem nodes_are_kept a t evs evs' :
  edges_between_nodes (G (run (TokenNetwork_init a t) evs))
  /\ nodes (G (run (TokenNetwork_init a t) evs))
     ⊆ nodes (G (run (TokenNetwork_init a t) (evs ++ evs'))).
Proof.
  split.
  - assert (H : forall tn, edges_between_nodes (G tn) -> edges_between_nodes (G (run tn evs))).
    { induction evs as [|ev evs IH]; intros tn Hb; cbn; [exact Hb|].
      apply IH, handle_between_nodes, Hb. }
    apply H. intros u v [d Hd]. cbn in Hd. rewrite lookup_empty in Hd. discriminate.
  - rewrite run_app. generalize (run (TokenNetwork_init a t) evs). intros tn.
    revert tn. induction evs' as [|ev evs' IH]; intros tn; cbn; [reflexivity|].
    etransitivity; [apply handle_nodes | apply IH].
Qed.

(** ** Checksum addresses *)

Lemma handle_addresses_checked tn ev :
  addresses_checked tn -> addresses_checked (state (handle tn ev)).
Proof.
  intros [Hm Hn].
  destruct ev as [cid p1 p2 settle|cid receiver total|cid|cid u o un on uc oc rt]; cbn [handle].
  - destruct (opened_shape tn cid p1 p2 settle) as [->|(Hc1 & Hc2 & ->)]; [split; assumption|].
    split; cbn.
    + intros c q1 q2. rewrite lookup_insert.
      destruct (decide (cid = c)); [|apply Hm].
      intros H; inversion H; subst. auto.
    + intros x Hx. apply elem_of_union in Hx as [Hx|Hx].
      { apply elem_of_singleton in Hx. now subst. }
      apply elem_of_union in Hx as [Hx|Hx].
      { apply elem_of_singleton in Hx. now subst. }
      apply elem_of_union in Hx as [Hx|Hx].
      { apply elem_of_singleton in Hx. now subst. }
      apply elem_of_union in Hx as [Hx|Hx].
      { apply elem_of_singleton in Hx. now subst. }
      auto.
  - destruct (deposit_shape tn cid receiver total) as [->|(u & v & f & g & _ & Hg & ->)];
      [split; assumption|].
    split; cbn; [exact Hm|]. now rewrite (update_view_nodes _ _ _ _ _ Hg).
  - destruct (closed_shape tn cid) as (Hm' & Hn' & _). split.
    + intros c q1 q2. rewrite Hm'. intros H.
      apply lookup_delete_Some in H as [_ H]. eauto.
    + intros x. rewrite Hn'. apply Hn.
  - destruct (balance_update_shape tn cid u o un on uc oc rt)
      as [->|(f1 & g1 & f2 & g2 & _ & _ & H1 & H2 & ->)]; [split; assumption|].
    split; cbn; [exact Hm|].
    now rewrite (update_view_nodes _ _ _ _ _ H2), (update_view_nodes _ _ _ _ _ H1).
Qed.

(** X19. Whatever calls the handlers receive, every participant in the
    mapping and every node of the graph is an address that has passed
    [is_checksum_address]. *)
Theorem registered_addresses_are_checked a t evs :
  addresses_checked (run (TokenNetwork_init a t) evs).
Proof.
  assert (H : forall tn, addresses_checked tn -> addresses_checked (run tn evs)).
  { induction evs as [|ev evs IH]; intros tn Hc; cbn; [exact Hc|].
    apply IH, handle_addresses_checked, Hc. }
  apply H. split; cbn.
  - intros cid p1 p2 Hm. rewrite lookup_empty in Hm. discriminate.
  - intros x Hx. apply elem_of_empty in Hx. contradiction.
Qed.

(** X20. The number of channels that [__repr__] reports: a [ChannelOpened]
    event with two checksum addresses and an identifier that is not in the
    mapping raises it by one, a [ChannelClosed] event for an identifier in
    the mapping lowers it by one, whether the call raises or not, and
    nothing else changes it; the address in the text never changes. *)
Theorem num_channels_after tn ev :
  num_channels (state (handle tn ev))
  = match ev with
    | ChannelOpened cid p1 p2 _ =>
        if is_checksum_address p1 && is_checksum_address p2 && negb (has_channel tn cid)
        then S (num_channels tn) else num_channels tn
    | ChannelClosed cid =>
        if has_channel tn cid then pred (num_channels tn) else num_channels tn
    | _ => num_channels tn
    end
  /\ TokenNetwork_repr (state (handle tn ev))
     = "<TokenNetwork address = " +:+ address tn +:+ " "
       +:+ "num_channels = " +:+ pretty (num_channels (state (handle tn ev))) +:+ ">".
Proof.
  unfold TokenNetwork_repr, num_channels, has_channel.
  destruct ev as [cid p1 p2 settle|cid receiver total|cid|cid u o un on uc oc rt]; cbn [handle].
  - unfold handle_channel_opened_event.
    destruct (is_checksum_address p1); cbn; [|auto].
    destruct (is_checksum_address p2); cbn; [|auto].
    destruct (channel_id_to_addresses tn !! cid) as [x|] eqn:E; cbn.
    + split; [|reflexivity]. rewrite map_size_insert_Some; eauto.
    + split; [|reflexivity]. now rewrite map_size_insert_None.
  - destruct (deposit_shape tn cid receiver total) as [->|(u & v & f & g & _ & _ & ->)]; auto.
  - destruct (closed_shape tn cid) as (Hm & _ & _).
    assert (Ha : address (state (handle_channel_closed_event tn cid)) = address tn).
    { unfold handle_channel_closed_event.
      destruct (channel_id_to_addresses tn !! cid) as [[p1 p2]|]; [|reflexivity].
      destruct (remove_edge _ p1 p2) as [g1|]; [|reflexivity].
      destruct (remove_edge g1 p2 p1); reflexivity. }
    rewrite Hm, Ha. split; [|reflexivity].
    destruct (channel_id_to_addresses tn !! cid) as [x|] eqn:E.
    + rewrite map_size_delete_Some by (rewrite E; eauto). reflexivity.
    + rewrite delete_id by exact E. reflexivity.
  - destruct (balance_update_shape tn cid u o un on uc oc rt)
      as [->|(f1 & g1 & f2 & g2 & _ & _ & _ & _ & ->)]; auto.
Qed.

End Run_further.

(** * Registered channels in runs with well-formed open events *)

Section Registered_further.
Context {Num : PyNumber} {Lib : Library}.

Lemma edge_channel_Some g u v cid :
  edge_channel g u v = Some cid ->
  exists d, edges g !! (u, v) = Some d /\ channel_id (view d) = cid.
Proof.
  unfold edge_channel. destruct (edges g !! (u, v)) as [d|]; cbn; [|discriminate].
  intros H; inversion H. eauto.
Qed.

Lemma consistent_handle tn ev :
  channels_consistent tn -> opens_new_channel tn ev = true ->
  channels_consistent (state (handle tn ev)).
Proof.
  intros Hc Hnew. apply (consistent_run tn [ev] Hc). cbn. now rewrite Hnew.
Qed.

Lemma names_update_view tn u v f g :
  views_name_participants tn -> keeps_identity f ->
  update_view (G tn) u v f = Some g ->
  views_name_participants (set_G tn g).
Proof.
  intros Hj Hf Hg a b d. cbn. rewrite (update_view_lookup _ _ _ _ _ a b Hg).
  destruct (edges (G tn) !! (a, b)) as [d0|] eqn:E; cbn; [|discriminate].
  intros H; inversion H; subst; clear H.
  specialize (Hj _ _ _ E). destruct (Hf (view d0)) as (H1 & H2 & H3).
  destruct (decide ((u, v) = (a, b))); cbn; [|exact Hj].
  now rewrite H1, H2, H3.
Qed.

Lemma names_handle tn ev :
  channels_consistent tn -> views_name_participants tn ->
  opens_new_channel tn ev = true ->
  views_name_participants (state (handle tn ev)).
Proof.
  intros Hc Hj Hnew.
  destruct ev as [cid p1 p2 settle|cid receiver total|cid|cid u o un on uc oc rt]; cbn [handle].
  - destruct (opened_shape tn cid p1 p2 settle) as [->|(_ & _ & ->)]; [exact Hj|].
    cbn in Hnew. apply andb_prop in Hnew as [Hnew _]. apply andb_prop in Hnew as [Hnew _].
    apply andb_prop in Hnew as [Hfresh _]. apply negb_true_iff, has_channel_false in Hfresh.
    intros a b d. cbn. rewrite !lookup_insert.
    destruct (decide ((p2, p1) = (a, b))) as [_|_].
    { intros H; inversion H; subst; cbn. now rewrite decide_True. }
    destruct (decide ((p1, p2) = (a, b))) as [_|_].
    { intros H; inversion H; subst; cbn. now rewrite decide_True. }
    intros Hd. specialize (Hj _ _ _ Hd).
    destruct (decide (cid = channel_id (view d))) as [Heq|_]; [|exact Hj].
    rewrite <- Heq, Hfresh in Hj. discriminate.
  - destruct (deposit_shape tn cid receiver total) as [->|(u & v & f & g & Hf & Hg & ->)];
      [exact Hj|].
    apply (names_update_view _ _ _ _ _ Hj Hf Hg).
  - destruct (channel_id_to_addresses tn !! cid) as [[p1 p2]|] eqn:E.
    + rewrite (closed_registered _ _ _ _ Hc E). intros a b d. cbn.
      intros Hd. apply lookup_delete_Some in Hd as [Hn1 Hd].
      apply lookup_delete_Some in Hd as [Hn2 Hd].
      specialize (Hj _ _ _ Hd). rewrite lookup_delete_ne; [exact Hj|].
      intros Heq. destruct Hc as [_ H2].
      assert (He : edge_channel (G tn) a b = Some cid)
        by (unfold edge_channel; rewrite Hd; cbn; now rewrite Heq).
      destruct (H2 _ _ _ He) as [Hm|Hm]; rewrite E in Hm; inversion Hm; subst; congruence.
    + unfold handle_channel_closed_event. rewrite E. exact Hj.
  - destruct (balance_update_shape tn cid u o un on uc oc rt)
      as [->|(f1 & g1 & f2 & g2 & Hf1 & Hf2 & H1 & H2 & ->)]; [exact Hj|].
    pose proof (names_update_view _ _ _ _ _ Hj Hf1 H1) as Hj1.
    apply (names_update_view (set_G tn g1) o u f2 g2 Hj1 Hf2 H2).
Qed.

Lemma names_run tn evs :
  channels_consistent tn -> views_name_participants tn ->
  opens_new_channels tn evs = true ->
  views_name_participants (run tn evs).
Proof.
  revert tn. induction evs as [|ev evs IH]; intros tn Hc Hj Hnew; cbn; [exact Hj|].
  cbn in Hnew. apply andb_prop in Hnew as [Hev Hrest].
  apply IH; [apply consistent_handle | apply names_handle | ]; assumption.
Qed.

(** X21. In a state reached by handler calls with well-formed open events
    (as in C4), [get_channel_views_for_partner] for a registered channel and
    its two participants, in either order, returns the two views of that
    channel and leaves the token network alone; and a balance update for the
    channel returns normally. *)
Theorem registered_channel_views a t evs cid p1 p2 un on uc oc rt :
  opens_new_channels (TokenNetwork_init a t) evs = true ->
  let tn := run (TokenNetwork_init a t) evs in
  channel_id_to_addresses tn !! cid = Some (p1, p2) ->
  (exists v1 v2,
      get_channel_views_for_partner tn cid p1 p2 = ret tn (v1, v2)
      /\ get_channel_views_for_partner tn cid p2 p1 = ret tn (v2, v1)
      /\ channel_id v1 = cid /\ channel_id v2 = cid)
  /\ returned (handle_channel_balance_update_message tn cid p1 p2 un on uc oc rt) = Ok tt
  /\ returned (handle_channel_balance_update_message tn cid p2 p1 un on uc oc rt) = Ok tt.
Proof.
  intros Hnew tn Hm.
  assert (Hc : channels_consistent tn)
    by (apply consistent_run; [apply consistent_init | exact Hnew]).
  destruct Hc as [H1 _]. destruct (H1 _ _ _ Hm) as (Hne & Ha & Hb).
  apply edge_channel_Some in Ha as (d1 & Hd1 & Hc1).
  apply edge_channel_Some in Hb as (d2 & Hd2 & Hc2).
  assert (Hk : (p1, p2) <> (p2, p1)) by (intros H; inversion H; congruence).
  assert (Hk' : (p2, p1) <> (p1, p2)) by (intros H; inversion H; congruence).
  split; [|split].
  - exists (view d1), (view d2).
    unfold get_channel_views_for_partner, edge_view. rewrite Hd1, Hd2. auto.
  - unfold handle_channel_balance_update_message, get_channel_views_for_partner, edge_view.
    rewrite Hd1, Hd2. cbn [returned ret].
    rewrite (update_view_some _ _ _ _ _ Hd1).
    erewrite update_view_some
      by (cbn [edges]; rewrite lookup_insert_ne by exact Hk; exact Hd2).
    reflexivity.
  - unfold handle_channel_balance_update_message, get_channel_views_for_partner, edge_view.
    rewrite Hd1, Hd2. cbn [returned ret].
    rewrite (update_view_some _ _ _ _ _ Hd2).
    erewrite update_view_some
      by (cbn [edges]; rewrite lookup_insert_ne by exact Hk'; exact Hd1).
    reflexivity.
Qed.

(** X22. In a state reached by handler calls with well-formed open events,
    the views on both edges of a registered channel name the participants in
    the order of the mapping: the view on the edge from participant2 to
    participant1 has participant1 as its first participant too. *)
Theorem views_name_registered_participants a t evs cid p1 p2 :
  opens_new_channels (TokenNetwork_init a t) evs = true ->
  let tn := run (TokenNetwork_init a t) evs in
  channel_id_to_addresses tn !! cid = Some (p1, p2) ->
  exists v1 v2,
    edge_view (G tn) p1 p2 = Ok v1 /\ edge_view (G tn) p2 p1 = Ok v2
    /\ participant1 v1 = p1 /\ participant2 v1 = p2
    /\ participant1 v2 = p1 /\ participant2 v2 = p2.
Proof.
  intros Hnew tn Hm.
  assert (Hc : channels_consistent tn)
    by (apply consistent_run; [apply consistent_init | exact Hnew]).
  assert (Hj : views_name_participants tn).
  { apply names_run; [apply consistent_init | | exact Hnew].
    intros u v d H. cbn in H. rewrite lookup_empty in H. discriminate. }
  destruct Hc as [H1 _]. destruct (H1 _ _ _ Hm) as (_ & Ha & Hb).
  apply edge_channel_Some in Ha as (d1 & Hd1 & Hc1).
  apply edge_channel_Some in Hb as (d2 & Hd2 & Hc2).
  exists (view d1), (view d2). unfold edge_view. rewrite Hd1, Hd2.
  pose proof (Hj _ _ _ Hd1) as J1. pose proof (Hj _ _ _ Hd2) as J2.
  rewrite Hc1, Hm in J1. rewrite Hc2, Hm in J2.
  inversion J1. inversion J2. repeat split; congruence.
Qed.

End Registered_further.

(** * The further properties at work on the sample networks *)

(** ** The sample enumeration yields paths from the source to the target *)

Lemma simple_paths_ends fuel g seen u t p :
  p ∈ simple_paths fuel g seen u t -> head p = Some u /\ last p = Some t.
Proof.
  revert seen u p. induction fuel as [|fuel IH]; intros seen u p; cbn.
  - destruct (decide (u = t)) as [->|_]; [|intros H; inversion H].
    intros H. apply list_elem_of_singleton in H. subst. auto.
  - destruct (decide (u = t)) as [->|_].
    { intros H. apply list_elem_of_singleton in H. subst. auto. }
    intros H. apply list_elem_of_In, in_flat_map in H as (v & _ & H).
    destruct (decide (v ∈ u :: seen)); [inversion H|].
    apply in_map_iff in H as (q & <- & Hq).
    apply list_elem_of_In, IH in Hq as [Hh Hl].
    split; [reflexivity|].
    destruct q as [|x q]; [discriminate|]. rewrite last_cons, Hl. reflexivity.
Qed.

Lemma insert_by_elem w p q l : q ∈ insert_by w p l -> q = p \/ q ∈ l.
Proof.
  induction l as [|x l IH]; cbn.
  - intros H. apply list_elem_of_singleton in H. auto.
  - destruct (w p <=? w x).
    + intros H. apply elem_of_cons in H as [->|H]; auto.
    + intros H. apply elem_of_cons in H as [->|H].
      * right. apply list_elem_of_here.
      * destruct (IH H) as [->|Hl]; [auto|]. right. apply list_elem_of_further, Hl.
Qed.

Lemma sorted_elem w q l : q ∈ foldr (insert_by w) [] l -> q ∈ l.
Proof.
  induction l as [|x l IH]; cbn; [auto|].
  intros H. apply insert_by_elem in H as [->|H].
  - apply list_elem_of_here.
  - apply list_elem_of_further, IH, H.
Qed.

Lemma yielded_foldr ps : yielded (foldr Yield StopIteration ps) = ps.
Proof. induction ps as [|p ps IH]; cbn; [reflexivity|]. now rewrite IH. Qed.

Lemma enumerate_simple_paths_ends g s t p :
  p ∈ yielded (enumerate_simple_paths g s t) -> head p = Some s /\ last p = Some t.
Proof.
  unfold enumerate_simple_paths.
  destruct (foldr _ _ _) as [|q qs] eqn:E; [intros H; inversion H|].
  rewrite yielded_foldr, <- E. intros H.
  apply sorted_elem in H. apply (simple_paths_ends _ _ _ _ _ _ H).
Qed.

(** ** Instances *)

Lemma check_path_constraints_true_iff_triangle :
  Forall (hop_feasible (G triangle) 60) (hops [alice; bob; carol]).
Proof.
  apply (proj1 (check_path_constraints_true_iff (G triangle) 60 [alice; bob; carol])).
  vm_compute. reflexivity.
Defined.

Lemma check_path_constraints_smaller_value_one_channel :
  check_path_constraints (G one_channel) 60 [alice; bob] = Ok true
  /\ 10 <= 60
  /\ check_path_constraints (G one_channel) 10 [alice; bob] = Ok true.
Proof.
  assert (H : check_path_constraints (G one_channel) 60 [alice; bob] = Ok true)
    by (vm_compute; reflexivity).
  assert (Hle : 10 <= 60) by (vm_compute; discriminate).
  split; [exact H|]. split; [exact Hle|].
  exact (check_path_constraints_smaller_value (G one_channel) 60 10 [alice; bob] H Hle).
Defined.

Lemma check_path_constraints_raises_overflow :
  exists u v,
    (u, v) ∈ hops [alice; bob]
    /\ ((OverflowError = KeyError /\ edges (G steep_channel) !! (u, v) = None)
        \/ exists vw,
             edge_view (G steep_channel) u v = Ok vw
             /\ 60 <= capacity vw
             /\ true_div (settle_timeout vw) (reveal_timeout vw) = Raise OverflowError
             /\ ((OverflowError = ZeroDivisionError /\ reveal_timeout vw = 0)
                 \/ (OverflowError = OverflowError /\ reveal_timeout vw <> 0))).
Proof.
  apply (check_path_constraints_raises (G steep_channel) 60 [alice; bob] OverflowError).
  vm_compute. reflexivity.
Defined.

Lemma get_paths_without_pass_hop_bias :
  state (get_paths one_channel alice bob 60 3 5 2) = one_channel
  /\ returned (get_paths one_channel alice bob 60 3 5 2) = Raise AssertionError.
Proof.
  apply (get_paths_without_pass one_channel alice bob 60 3 5 2).
  left. reflexivity.
Defined.

Lemma get_paths_returns_enumerated_paths_triangle :
  head (path (entry [alice; bob; carol])) = Some alice
  /\ last (path (entry [alice; bob; carol])) = Some carol.
Proof.
  apply (get_paths_returns_enumerated_paths triangle alice carol 60 2 5 1
           (fun p => head p = Some alice /\ last p = Some carol)
           [entry [alice; carol]; entry [alice; bob; carol]]
           (entry [alice; bob; carol])).
  - intros g p _ Hp. apply (enumerate_simple_paths_ends g alice carol p Hp).
  - vm_compute. reflexivity.
  - apply list_elem_of_further, list_elem_of_here.
Defined.

Lemma get_paths_more_paths_append_triangle :
  [entry [alice; carol]] `prefix_of` [entry [alice; carol]; entry [alice; bob; carol]].
Proof.
  apply (get_paths_more_paths_append triangle alice carol 60 1 2 5 1).
  - vm_compute. discriminate.
  - vm_compute. reflexivity.
  - vm_compute. reflexivity.
Defined.

Lemma get_paths_first_entry_triangle :
  head [entry [alice; carol]; entry [alice; bob; carol]] = Some (entry [alice; carol]).
Proof.
  apply (get_paths_first_entry triangle alice carol 60 2 5 1).
  - vm_compute. reflexivity.
  - vm_compute. discriminate.
  - vm_compute. reflexivity.
Defined.

Lemma get_paths_estimated_fee_tolled :
  estimated_fee {| path := [alice; bob]; estimated_fee := 0 |} = 0.
Proof.
  apply (get_paths_estimated_fee tolled_channel alice bob 60 1 5 1
           [{| path := [alice; bob]; estimated_fee := 0 |}]).
  - vm_compute. reflexivity.
  - apply list_elem_of_here.
Defined.

Lemma opened_event_registers_first_channel :
  is_checksum_address alice && is_checksum_address bob = true
  /\ returned (handle_channel_opened_event empty_network 1 alice bob 100) = Ok tt
  /\ edge_view (G (state (handle_channel_opened_event empty_network 1 alice bob 100)))
       bob alice
     = Ok (ChannelView_new 1 alice bob 100 0).
Proof.
  assert (Hchk : is_checksum_address alice && is_checksum_address bob = true)
    by reflexivity.
  split; [exact Hchk|].
  destruct (proj2 (opened_event_registers empty_network 1 alice bob 100) Hchk)
    as (Hr & _ & _ & _ & _ & Hv & _).
  split; [exact Hr | exact Hv].
Defined.

Lemma deposit_event_never_raises_one_channel :
  is_checksum_address alice = true
  /\ returned (handle_channel_new_deposit_event one_channel 1 alice 70) = Ok tt.
Proof.
  assert (Hchk : is_checksum_address alice = true) by reflexivity.
  split; [exact Hchk|].
  exact (proj1 (deposit_event_never_raises one_channel 1 alice 70 Hchk)).
Defined.

Lemma deposit_event_updates_one_view_bob :
  exists d,
    edges (G one_channel) !! (bob, alice) = Some d
    /\ edge_view (G (state (handle_channel_new_deposit_event one_channel 1 bob 70)))
         bob alice
       = Ok (update_capacity (view d) None None (Some 70) None)
    /\ edges (G (state (handle_channel_new_deposit_event one_channel 1 bob 70)))
         !! (alice, bob)
       = edges (G one_channel) !! (alice, bob).
Proof.
  eexists. split; [vm_compute; reflexivity|].
  match goal with
  | |- edge_view _ _ _ = Ok (update_capacity (view ?d) _ _ _ _) /\ _ =>
      destruct (deposit_event_updates_one_view one_channel 1 bob alice 70 d)
        as (_ & _ & Hv & Hfr)
  end.
  - reflexivity.
  - right. split; [vm_compute; reflexivity | discriminate].
  - vm_compute. reflexivity.
  - split; [exact Hv|]. apply Hfr. discriminate.
Defined.

Lemma closed_event_outcome_unknown :
  channel_id_to_addresses one_channel !! 7 = None
  /\ state (handle_channel_closed_event one_channel 7) = one_channel
  /\ logged (handle_channel_closed_event one_channel 7) = [unknown_closed_msg]
  /\ returned (handle_channel_closed_event one_channel 7) = Ok tt.
Proof.
  assert (Hm : channel_id_to_addresses one_channel !! 7 = None) by (vm_compute; reflexivity).
  split; [exact Hm|].
  destruct (closed_event_outcome one_channel 7) as (_ & _ & _ & _ & H).
  exact (H Hm).
Defined.

Lemma closed_event_self_channel_alice :
  channel_id_to_addresses (run empty_network [ChannelOpened 1 alice alice 100]) !! 1
  = Some (alice, alice)
  /\ returned (handle_channel_closed_event
                 (run empty_network [ChannelOpened 1 alice alice 100]) 1)
     = Raise NetworkXError.
Proof.
  assert (Hm : channel_id_to_addresses
                 (run empty_network [ChannelOpened 1 alice alice 100]) !! 1
               = Some (alice, alice)) by (vm_compute; reflexivity).
  split; [exact Hm|].
  exact (proj1 (closed_event_self_channel _ 1 alice Hm)).
Defined.

Lemma opened_then_closed_empty_network :
  let closed :=
    handle_channel_closed_event
      (state (handle_channel_opened_event empty_network 1 alice bob 100)) 1 in
  returned closed = Ok tt
  /\ logged closed = []
  /\ channel_id_to_addresses (state closed) = channel_id_to_addresses empty_network
  /\ edges (G (state closed)) = edges (G empty_network)
  /\ nodes (G (state closed)) = {[alice; bob]} ∪ nodes (G empty_network).
Proof.
  apply (opened_then_closed empty_network 1 alice bob 100); reflexivity.
Defined.

Lemma balance_update_missing_edge_carol :
  has_edge (G one_channel) alice carol && has_edge (G one_channel) carol alice = false
  /\ handle_channel_balance_update_message one_channel 1 alice carol 1 1 10 10 5
     = raise one_channel KeyError.
Proof.
  assert (H : has_edge (G one_channel) alice carol
              && has_edge (G one_channel) carol alice = false)
    by (vm_compute; reflexivity).
  split; [exact H|].
  exact (balance_update_missing_edge one_channel 1 alice carol 1 1 10 10 5 H).
Defined.

Lemma balance_update_effect_one_channel :
  exists d1 d2,
    edges (G one_channel) !! (alice, bob) = Some d1
    /\ edges (G one_channel) !! (bob, alice) = Some d2
    /\ returned (handle_channel_balance_update_message one_channel 1 alice bob 3 4 80 70 20)
       = Ok tt
    /\ edge_view
         (G (state (handle_channel_balance_update_message one_channel 1 alice bob
                      3 4 80 70 20))) bob alice
       = Ok (update_capacity (view d2) (Some 4) (Some 70) None None).
Proof.
  assert (H1 : exists d1, edges (G one_channel) !! (alice, bob) = Some d1)
    by (eexists; vm_compute; reflexivity).
  assert (H2 : exists d2, edges (G one_channel) !! (bob, alice) = Some d2)
    by (eexists; vm_compute; reflexivity).
  destruct H1 as [d1 H1]. destruct H2 as [d2 H2]. exists d1, d2.
  split; [exact H1|]. split; [exact H2|].
  destruct (balance_update_effect one_channel 1 alice bob 3 4 80 70 20 d1 d2 H1 H2)
    as (Hr & _ & _ & _ & Hv & _).
  split; [exact Hr|].
  rewrite decide_False in Hv by discriminate. exact Hv.
Defined.

Lemma registered_channel_views_triangle :
  (exists v1 v2,
      get_channel_views_for_partner triangle 2 bob carol = ret triangle (v1, v2)
      /\ get_channel_views_for_partner triangle 2 carol bob = ret triangle (v2, v1)
      /\ channel_id v1 = 2 /\ channel_id v2 = 2)
  /\ returned (handle_channel_balance_update_message triangle 2 bob carol 3 4 80 70 20)
     = Ok tt
  /\ returned (handle_channel_balance_update_message triangle 2 carol bob 3 4 80 70 20)
     = Ok tt.
Proof.
  apply (registered_channel_views dave dave
           [ChannelOpened 1 alice bob 100; ChannelOpened 2 bob carol 100;
            ChannelOpened 3 alice carol 100;
            ChannelNewDeposit 1 alice 100; ChannelNewDeposit 1 bob 100;
            ChannelNewDeposit 2 bob 100; ChannelNewDeposit 2 carol 100;
            ChannelNewDeposit 3 alice 100; ChannelNewDeposit 3 carol 100]
           2 bob carol 3 4 80 70 20).
  - vm_compute. reflexivity.
  - vm_compute. reflexivity.
Defined.

Lemma views_name_registered_participants_triangle :
  exists v1 v2,
    edge_view (G triangle) bob carol = Ok v1 /\ edge_view (G triangle) carol bob = Ok v2
    /\ participant1 v1 = bob /\ participant2 v1 = carol
    /\ participant1 v2 = bob /\ participant2 v2 = carol.
Proof.
  apply (views_name_registered_participants dave dave
           [ChannelOpened 1 alice bob 100; ChannelOpened 2 bob carol 100;
            ChannelOpened 3 alice carol 100;
            ChannelNewDeposit 1 alice 100; ChannelNewDeposit 1 bob 100;
            ChannelNewDeposit 2 bob 100; ChannelNewDeposit 2 carol 100;
            ChannelNewDeposit 3 alice 100; ChannelNewDeposit 3 carol 100]
           2 bob carol).
  - vm_compute. reflexivity.
  - vm_compute. reflexivity.
Defined.

Lemma get_paths_exceptions_overflow :
  OverflowError = AssertionError \/ OverflowError = KeyError
  \/ OverflowError = ZeroDivisionError \/ OverflowError = OverflowError
  \/ OverflowError = NodeNotFound
  \/ exists g, gen_end (simple_paths_by_weight g alice bob) = Some OverflowError.
Proof.
  apply (get_paths_exceptions steep_channel alice bob 60 3 5 1).
  vm_compute. reflexivity.
Defined.
